(** * clickbait-detector: the content-extraction function of [app.py]

    A shallow embedding of [extract_info_from_url] (app.py, lines 39-160)
    and of the library operations it calls, followed by the properties of
    the extraction pipeline.

    Conventions.
    - A Python [str] is a list of Unicode code points ([str := list N]);
      [len] is [length].  A [bytes] object is a list of byte values.
    - The HTTP layer ([requests]) and the markup parser ([BeautifulSoup(...)])
      are parameters of the model: the function is run in an [env] that
      says what the fetch and the parser answer.
    - The parse tree is a rose tree; [find], [find_all], [select_one],
      [decompose], [get_text] and [find_parent] are functions on it.  The
      tree is mutable in Python: here it is threaded, so that what one
      selector removes is seen by every later step.
    - [try]/[except] is an error monad over the exception classes that the
      function distinguishes.  [Tag.string], the one recursive call of the
      library on the tree, has a depth budget and raises [RecursionError]
      beyond it.
    - The Streamlit calls ([st.info], [st.warning], [st.error]) are recorded
      in a log returned next to the triple. *)

From Stdlib Require Import List NArith Bool Ascii String Lia Arith.
Import ListNotations.

Set Implicit Arguments.
Set Warnings "-register-all".

(* ===================================================================== *)
(** * Part I.  Definitions                                                *)
(* ===================================================================== *)

(** ** Python strings *)

Module Py.

Definition char := N.
Definition str := list char.
Definition bytes := list N.

(** ASCII literal -> [str]. *)
Definition bytes_of_string (s : string) : list N :=
  map N_of_ascii (list_ascii_of_string s).

(** Literals of the source are written as UTF-8 text and decoded here, so
    that they can be compared with the source by eye. *)
Fixpoint utf8 (bs : list N) : str :=
  match bs with
  | [] => []
  | b0 :: r0 =>
    if b0 <? 0x80 then b0 :: utf8 r0
    else if b0 <? 0xE0 then
      match r0 with
      | b1 :: r1 => ((b0 - 0xC0) * 64 + (b1 - 0x80)) :: utf8 r1
      | _ => []
      end
    else if b0 <? 0xF0 then
      match r0 with
      | b1 :: b2 :: r2 =>
          ((b0 - 0xE0) * 4096 + (b1 - 0x80) * 64 + (b2 - 0x80)) :: utf8 r2
      | _ => []
      end
    else
      match r0 with
      | b1 :: b2 :: b3 :: r3 =>
          ((b0 - 0xF0) * 262144 + (b1 - 0x80) * 4096
           + (b2 - 0x80) * 64 + (b3 - 0x80)) :: utf8 r3
      | _ => []
      end
  end%N.

Definition u (s : string) : str := utf8 (bytes_of_string s).

Definition chr (a : ascii) : char := N_of_ascii a.

(** [len(s)] *)
Definition len (s : str) : nat := List.length s.

(** [a == b] on strings. *)
Fixpoint eqb (a b : str) : bool :=
  match a, b with
  | [], [] => true
  | x :: a', y :: b' => N.eqb x y && eqb a' b'
  | _, _ => false
  end.

(** [str.isspace] on one character: CPython's [_PyUnicode_IsWhitespace].
    [str.strip()] and [\s] of [re] (on [str] patterns) use the same test. *)
Definition isspace (c : char) : bool :=
  (((0x09 <=? c) && (c <=? 0x0D)) || ((0x1C <=? c) && (c <=? 0x20))
  || (c =? 0x85) || (c =? 0xA0) || (c =? 0x1680)
  || ((0x2000 <=? c) && (c <=? 0x200A))
  || (c =? 0x2028) || (c =? 0x2029) || (c =? 0x202F) || (c =? 0x205F)
  || (c =? 0x3000))%N.

Definition space : char := 0x20%N.

Fixpoint drop_while (p : char -> bool) (s : str) : str :=
  match s with
  | [] => []
  | c :: t => if p c then drop_while p t else s
  end.

Definition lstrip (s : str) : str := drop_while isspace s.
Definition rstrip (s : str) : str := rev (drop_while isspace (rev s)).

(** [s.strip()] *)
Definition strip (s : str) : str := rstrip (lstrip s).

(** [s.startswith(p)], returning the rest. *)
Fixpoint strip_prefix (p s : str) : option str :=
  match p, s with
  | [], _ => Some s
  | x :: p', y :: s' => if N.eqb x y then strip_prefix p' s' else None
  | _ :: _, [] => None
  end.

Definition startswith (p s : str) : bool :=
  match strip_prefix p s with Some _ => true | None => false end.

(** [needle in s] *)
Fixpoint contains (needle s : str) : bool :=
  startswith needle s ||
  match s with
  | [] => false
  | _ :: t => contains needle t
  end.

(** [c in s] for one character. *)
Definition has_char (c : char) (s : str) : bool := existsb (N.eqb c) s.

(** [s.split(sep)] for a one-character separator: never empty. *)
Fixpoint split (sep : char) (s : str) : list str :=
  match s with
  | [] => [[]]
  | c :: t =>
    if N.eqb c sep then [] :: split sep t
    else match split sep t with
         | [] => [[c]]
         | w :: ws => (c :: w) :: ws
         end
  end.

(** [s.replace(c, '')] for one character. *)
Definition remove_char (c : char) (s : str) : str :=
  filter (fun x => negb (N.eqb x c)) s.

(** [sep.join(parts)] *)
Fixpoint join (sep : str) (parts : list str) : str :=
  match parts with
  | [] => []
  | [p] => p
  | p :: ps => p ++ sep ++ join sep ps
  end.

(** [s.lower()] on the Latin-1 range, which is where HTTP header values
    live ([http.client] decodes them as ISO-8859-1). *)
Definition lower_char (c : char) : char :=
  (if ((0x41 <=? c) && (c <=? 0x5A))
      || ((0xC0 <=? c) && (c <=? 0xDE) && negb (c =? 0xD7))
   then c + 32 else c)%N.

Definition lower (s : str) : str := map lower_char s.

End Py.

Import Py.

(** ** The [re] module: a backtracking matcher

    Only the constructs that occur in the two patterns of [app.py]: literal
    characters, character classes, concatenation, ordered alternation, the
    greedy [?], the greedy [*] and [+] of a character class, and one
    capturing group.  The matcher is written in continuation-passing style:
    the continuation is the rest of the pattern, and a [None] from it makes
    the matcher try its next choice, which is Python's backtracking order. *)

Module Re.

Inductive regex : Type :=
| Eps
| Chr (c : char)                    (* one literal character *)
| Cls (p : char -> bool)            (* a character class [...] *)
| Cat (r1 r2 : regex)               (* r1 r2 *)
| Alt (r1 r2 : regex)               (* r1|r2, r1 tried first *)
| Opt (r : regex)                   (* r?  (greedy) *)
| Star (p : char -> bool)           (* [...]*  (greedy) *)
| Plus (p : char -> bool)           (* [...]+  (greedy) *)
| Group (r : regex).                (* ( r ), group 1 *)

(** [lit "abc"] *)
Fixpoint lit (s : str) : regex :=
  match s with
  | [] => Eps
  | [c] => Chr c
  | c :: t => Cat (Chr c) (lit t)
  end.

(** [a|b|c|...] *)
Fixpoint alts (rs : list regex) : regex :=
  match rs with
  | [] => Cls (fun _ => false)
  | [r] => r
  | r :: rs' => Alt r (alts rs')
  end.

Fixpoint cats (rs : list regex) : regex :=
  match rs with
  | [] => Eps
  | [r] => r
  | r :: rs' => Cat r (cats rs')
  end.

Section Matcher.
Variable A : Type.

(** Greedy repetition of a class: longest run first, then shorter. *)
Fixpoint star_k (p : char -> bool) (s : str) (k : str -> option A)
  : option A :=
  match s with
  | c :: s' =>
    if p c then
      match star_k p s' k with
      | Some a => Some a
      | None => k s
      end
    else k s
  | [] => k []
  end.

(** [m r g s k]: match [r] at the head of [s]; [g] is group 1 so far;
    [k] receives the group and the input left. *)
Fixpoint m (r : regex) (g : option str) (s : str)
           (k : option str -> str -> option A) : option A :=
  match r with
  | Eps => k g s
  | Chr c =>
    match s with
    | x :: s' => if N.eqb x c then k g s' else None
    | [] => None
    end
  | Cls p =>
    match s with
    | x :: s' => if p x then k g s' else None
    | [] => None
    end
  | Cat r1 r2 => m r1 g s (fun g' s' => m r2 g' s' k)
  | Alt r1 r2 =>
    match m r1 g s k with
    | Some a => Some a
    | None => m r2 g s k
    end
  | Opt r1 =>
    match m r1 g s k with
    | Some a => Some a
    | None => k g s
    end
  | Star p => star_k p s (k g)
  | Plus p =>
    match s with
    | x :: s' => if p x then star_k p s' (k g) else None
    | [] => None
    end
  | Group r1 =>
    m r1 g s (fun _ s' => k (Some (firstn (len s - len s') s)) s')
  end.
End Matcher.

(** [re.match(r, s)]: group 1 and the input after the match. *)
Definition match_at (r : regex) (s : str) : option (option str * str) :=
  m r None s (fun g s' => Some (g, s')).

(** [re.search(r, s)]: the leftmost position where [r] matches. *)
Fixpoint search (r : regex) (s : str) : option (option str * str) :=
  match match_at r s with
  | Some x => Some x
  | None =>
    match s with
    | [] => None
    | _ :: t => search r t
    end
  end.

(** [re.sub(r, repl, s)] for a pattern that matches no empty string (an
    empty match is passed over): the matches are taken left to right, each
    is replaced by [repl], and the scan resumes after it.  [skip] counts
    the characters of the current match still to be passed. *)
Fixpoint sub_go (r : regex) (repl : str) (skip : nat) (s : str) : str :=
  match s with
  | [] => []
  | c :: t =>
    match skip with
    | S n => sub_go r repl n t
    | O =>
      match match_at r s with
      | Some (_, rest) =>
        match len s - len rest with
        | S n => repl ++ sub_go r repl n t
        | O => c :: sub_go r repl 0 t
        end
      | None => c :: sub_go r repl 0 t
      end
    end
  end.

Definition sub (r : regex) (repl : str) (s : str) : str := sub_go r repl 0 s.

End Re.

(** ** Exceptions and the error monad *)

(** The exception classes that the handlers of [extract_info_from_url]
    tell apart.  All of them derive from [Exception]. *)
Inductive request_error : Type :=
| Timeout
| ConnectionError
| HTTPError (status : N)
| OtherRequestError.

Inductive exn : Type :=
| RequestException (e : request_error)   (* requests.exceptions.* *)
| UnicodeDecodeError
| ValueError
| IndexError
| OtherException (name : string).        (* any other Exception subclass *)

Inductive result (A : Type) : Type :=
| Ok (a : A)
| Raise (e : exn).

Arguments Ok {A} a.
Arguments Raise {A} e.

Definition bind {A B : Type} (c : result A) (f : A -> result B) : result B :=
  match c with
  | Ok a => f a
  | Raise e => Raise e
  end.


(** ** The parse tree ([bs4])

    What [BeautifulSoup(text, 'html.parser')] builds: text nodes, the string
    nodes that [get_text] leaves out (comments and the like), and tags with
    their attribute dictionary and their contents.  The [BeautifulSoup]
    object itself is the list of the top-level nodes. *)

Module Bs4.

Definition attrs := list (str * str).

Inductive node : Type :=
| NavigableString (s : str)
| Comment (s : str)
| Tag (name : str) (a : attrs) (contents : list node).

Definition soup := list node.

(** [tag.get(key)] *)
Fixpoint attr_get (key : str) (a : attrs) : option str :=
  match a with
  | [] => None
  | (k, v) :: a' => if Py.eqb k key then Some v else attr_get key a'
  end.

(** The values of a multi-valued attribute such as [class]: the maximal
    runs of characters that are not whitespace. *)
Fixpoint words_go (cur : str) (s : str) : list str :=
  match s with
  | [] => match cur with [] => [] | _ => [rev cur] end
  | c :: t =>
    if isspace c
    then match cur with [] => words_go [] t | _ => rev cur :: words_go [] t end
    else words_go (c :: cur) t
  end.

Definition words (s : str) : list str := words_go [] s.

Definition classes (a : attrs) : list str :=
  match attr_get (u "class") a with
  | Some v => words v
  | None => []
  end.

(** [class_=names]: some value of the tag's [class] is one of [names]. *)
Definition has_class_in (names : list str) (a : attrs) : bool :=
  existsb (fun c => existsb (Py.eqb c) names) (classes a).

(** [key=value] on a single-valued attribute. *)
Definition attr_is (key value : str) (a : attrs) : bool :=
  match attr_get key a with
  | Some v => Py.eqb v value
  | None => false
  end.

(** *** Searching *)

Section Find.
Variable test : str -> attrs -> bool.

(** The first tag, in document order, among [n] and what is below it. *)
Fixpoint find_node (n : node) : option node :=
  match n with
  | Tag name a cs =>
    if test name a then Some n
    else (fix find_list (l : list node) : option node :=
            match l with
            | [] => None
            | x :: l' =>
              match find_node x with
              | Some r => Some r
              | None => find_list l'
              end
            end) cs
  | _ => None
  end.

(** [soup.find(...)]: the first matching tag below the root. *)
Fixpoint find (l : list node) : option node :=
  match l with
  | [] => None
  | x :: l' =>
    match find_node x with
    | Some r => Some r
    | None => find l'
    end
  end.

(** In-place change of the tag that [find] returns: its contents become
    [f contents].  Returns the changed tag and the changed tree. *)
Variable f : list node -> list node.

Fixpoint update_node (n : node) : option (node * node) :=
  match n with
  | Tag name a cs =>
    if test name a then
      let e := Tag name a (f cs) in Some (e, e)
    else
      match (fix update_list (l : list node) : option (node * list node) :=
               match l with
               | [] => None
               | x :: l' =>
                 match update_node x with
                 | Some (e, x') => Some (e, x' :: l')
                 | None =>
                   match update_list l' with
                   | Some (e, l'') => Some (e, x :: l'')
                   | None => None
                   end
                 end
               end) cs with
      | Some (e, cs') => Some (e, Tag name a cs')
      | None => None
      end
  | _ => None
  end.

Fixpoint update (l : list node) : option (node * list node) :=
  match l with
  | [] => None
  | x :: l' =>
    match update_node x with
    | Some (e, x') => Some (e, x' :: l')
    | None =>
      match update l' with
      | Some (e, l'') => Some (e, x :: l'')
      | None => None
      end
    end
  end.
End Find.

(** [find_all(name)] below a node, each tag with the attribute
    dictionaries of its ancestors, nearest first (what [find_parent]
    walks through). *)
Fixpoint find_all_node (name : str) (anc : list attrs) (n : node)
  : list (node * list attrs) :=
  match n with
  | Tag nm a cs =>
    (if Py.eqb nm name then [(n, anc)] else [])
    ++ flat_map (find_all_node name (a :: anc)) cs
  | _ => []
  end.

Definition find_all (name : str) (s : soup) : list (node * list attrs) :=
  flat_map (find_all_node name []) s.

(** [p.find_parent(class_=names)] is not [None]. *)
Definition has_parent_with_class (names : list str) (anc : list attrs)
  : bool :=
  existsb (has_class_in names) anc.

(** *** Text *)

(** The strings that [get_text(strip=True)] joins: every text node below
    [n], stripped, the empty ones left out. *)
Fixpoint stripped_strings (n : node) : list str :=
  match n with
  | NavigableString s =>
    match strip s with
    | [] => []
    | t => [t]
    end
  | Comment _ => []
  | Tag _ _ cs => flat_map stripped_strings cs
  end.

(** [n.get_text(separator=sep, strip=True)] *)
Definition get_text (sep : str) (n : node) : str :=
  join sep (stripped_strings n).

(** [tag.string]: the only child if it is a string, the [.string] of the
    only child if it is a tag, [None] otherwise.  The property calls itself
    on the child, one interpreter frame for each nested tag: [depth] is
    the number of such calls that the recursion limit still allows, and
    [RecursionError] is raised when they are used up. *)
Fixpoint string_of (depth : nat) (n : node) : result (option str) :=
  match depth with
  | O => Raise (OtherException "RecursionError")
  | S depth' =>
    match n with
    | Tag _ _ [c] =>
      match c with
      | NavigableString s => Ok (Some s)
      | Comment s => Ok (Some s)
      | Tag _ _ _ => string_of depth' c
      end
    | _ => Ok None
    end
  end.

End Bs4.

Import Bs4.

(** ** [bytes.decode(encoding, errors=...)]

    The codec machinery of Python: the codec proper looks at the bytes that
    are left and either maps a prefix of them to a character or reports a
    prefix that cannot be mapped; the [errors] argument says what is done
    with such a prefix.  The mapping of an encoding (for [euc-kr], the
    KS X 1001 table) is a parameter. *)

Module Codec.

Inductive step : Type :=
| Decoded (c : char) (more : nat)   (* [1 + more] bytes give [c] *)
| Malformed (more : nat).           (* [1 + more] bytes cannot be mapped *)

(** The codec proper, called on the bytes that are left (never on none). *)
Definition codec := bytes -> step.

Inductive errors : Type := Strict | Replace | Ignore.

Definition replacement_character : char := 0xFFFD%N.

Section Decode.
Variable cd : codec.
Variable err : errors.

Fixpoint decode_go (skip : nat) (bs : bytes) : result str :=
  match bs with
  | [] => Ok []
  | _ :: t =>
    match skip with
    | S n => decode_go n t
    | O =>
      match cd bs with
      | Decoded c n =>
        bind (decode_go n t) (fun r => Ok (c :: r))
      | Malformed n =>
        match err with
        | Strict => Raise UnicodeDecodeError
        | Replace =>
          bind (decode_go n t) (fun r => Ok (replacement_character :: r))
        | Ignore => decode_go n t
        end
      end
    end
  end.

Definition decode (bs : bytes) : result str := decode_go 0 bs.
End Decode.

(** What decoding with replacement has to give, said without the decoder:
    the bytes are read from left to right as the codec cuts them; a prefix
    that is mapped gives its character, a prefix that cannot be mapped
    gives one replacement character, and no byte is left unread. *)
Inductive replaced (cd : codec) : bytes -> str -> Prop :=
| replaced_end : replaced cd [] []
| replaced_mapped (b : N) (bs : bytes) (c : char) (more : nat) (t : str) :
    cd (b :: bs) = Decoded c more ->
    replaced cd (skipn more bs) t ->
    replaced cd (b :: bs) (c :: t)
| replaced_unmapped (b : N) (bs : bytes) (more : nat) (t : str) :
    cd (b :: bs) = Malformed more ->
    replaced cd (skipn more bs) t ->
    replaced cd (b :: bs) (replacement_character :: t).

End Codec.

(** ** The world of one call *)

(** What [requests.get] returned: the HTTP status, the baseline decode
    [response.text], the raw [response.content] and the [Content-Type]
    header when there is one. *)
Record response : Type := {
  status_code : N;
  text : str;
  content : bytes;
  content_type : option str
}.

(** [response.raise_for_status()] of [requests]: an [HTTPError] for a
    client error (400 to 499) or a server error (500 to 599), nothing for
    any other status. *)
Definition raise_for_status (r : response) : result unit :=
  if ((400 <=? status_code r) && (status_code r <? 600))%N
  then Raise (RequestException (HTTPError (status_code r)))
  else Ok tt.

(** What the parser answers: a tree, or an exception of its own (none of
    the classes of [requests]). *)
Inductive parsed : Type :=
| Parsed (sp : soup)
| ParserRaised (name : string).

Record env : Type := {
  (** [requests.get(url, headers=headers, timeout=10)] *)
  requests_get : str -> result response;
  (** the [euc-kr] codec of the interpreter *)
  euc_kr : Codec.codec;
  (** [BeautifulSoup(text_content, 'html.parser')] *)
  BeautifulSoup : str -> parsed;
  (** the nested calls of [Tag.string] that the recursion limit of the
      interpreter allows at line 70 *)
  string_depth : nat
}.

Definition parse (e : env) (text_content : str) : result soup :=
  match BeautifulSoup e text_content with
  | Parsed sp => Ok sp
  | ParserRaised name => Raise (OtherException name)
  end.

(** The Streamlit calls of [extract_info_from_url]. *)
Inductive st_call : Type :=
| st_info_redecoded                 (* line 61 *)
| st_warning_euc_kr                 (* line 63 *)
| st_error_request (e : request_error)   (* line 156 *)
| st_warning_unexpected (e : exn).  (* line 159 *)

(** ** Sentinels *)

Definition no_title : str := u "제목 없음".
Definition no_body : str := u "본문 없음".
Definition unknown_source : str := u "출처 불명".

(** ** Encoding (lines 52-64) *)

Definition charset_euc_kr : str := u "charset=euc-kr".
Definition dt_co_kr : str := u "dt.co.kr".

(** The test of line 57. *)
Definition euc_kr_override (r : response) (url : str) : bool :=
  let content_type :=
    lower (match content_type r with Some v => v | None => [] end) in
  contains charset_euc_kr content_type || contains dt_co_kr url.

(** Lines 53-64: the text handed to the parser, and the Streamlit calls. *)
Definition decode_response (e : env) (r : response) (url : str)
  : result str * list st_call :=
  let text_content := text r in
  if euc_kr_override r url then
    match Codec.decode (euc_kr e) Codec.Replace (content r) with
    | Ok t => (Ok t, [st_info_redecoded])
    | Raise UnicodeDecodeError => (Ok text_content, [st_warning_euc_kr])
    | Raise x => (Raise x, [])
    end
  else (Ok text_content, []).

(** ** Title (lines 68-71) *)

Definition is_og_title (name : str) (a : attrs) : bool :=
  Py.eqb name (u "meta") && attr_is (u "property") (u "og:title") a.

Definition is_title (name : str) (_ : attrs) : bool :=
  Py.eqb name (u "title").

(** Truth value of an optional string: [None] and [''] are false. *)
Definition truthy (s : option str) : bool :=
  match s with
  | Some (_ :: _) => true
  | _ => false
  end.

Definition extract_title (depth : nat) (sp : soup) : result str :=
  let title_tag := find is_og_title sp in
  let og_content :=
    match title_tag with
    | Some (Tag _ a _) => attr_get (u "content") a
    | _ => None
    end in
  bind
    (if truthy og_content then Ok og_content
     else match find is_title sp with
          | Some t => string_of depth t
          | None => Ok (Some no_title)
          end)
    (fun title =>
       match title with
       | Some (c :: t) => Ok (strip (c :: t))
       | _ => Ok no_title
       end).

(** ** Body (lines 73-137) *)

(** [re.sub(r'\s+', ' ', s).strip()] (lines 120 and 132) *)
Definition whitespace_run : Re.regex := Re.Plus isspace.

Definition normalize (s : str) : str :=
  strip (Re.sub whitespace_run [space] s).

Definition dquote : char := 34%N.

Definition possible_body_selectors : list str :=
  [ u "div.article_view";
    u "div.article_head_body";
    u "div#article_content";
    u "div.article_body_content";
    u "div#harmonyContainer";
    u "div.article-view-content-wrapper";
    u "div.news_content";
    u "div.article_content";
    u "div.body_content";
    u "div.entry-content";
    u "section.article-body";
    u "div.view_page_text";
    u "div[itemprop=" ++ [dquote] ++ u "articleBody" ++ [dquote] ++ u "]";
    u "article";
    u "div#articleBody";
    u "div.contents_area";
    u "div.news_view";
    u "div.view_txt";
    u "div.txt_area";
    u "div.article_text";
    u "div.news_content_area";
    u "div.cont_art" ].

(** The four ways in which lines 102-111 look an element up. *)
Inductive matcher : Type :=
| ByCss (tag attr value : str)    (* soup.select_one('tag[attr=value]') *)
| ByClass (tag class_name : str)  (* soup.find(tag, class_=class_name) *)
| ById (tag id_name : str)        (* soup.find(tag, id=id_name) *)
| ByName (tag : str).             (* soup.find(selector) *)

(** The attribute selector [tag[attr="value"]], the one form of CSS
    selector that the catalog hands to [select_one]. *)
Definition parse_css (selector : str) : option matcher :=
  match split (chr "[") selector with
  | [tag; r] =>
    match split dquote r with
    | [a; v; close] =>
      match rev a with
      | eq :: ra =>
        if N.eqb eq (chr "=") && Py.eqb close (u "]")
        then Some (ByCss tag (rev ra) v) else None
      | [] => None
      end
    | _ => None
    end
  | _ => None
  end.

(** Lines 102-111.  The unpacking [tag, class_name = selector.split('.')]
    raises [ValueError] unless the split has two parts. *)
Definition dispatch (selector : str) : result matcher :=
  if has_char (chr "[") selector && has_char (chr "]") selector then
    match parse_css selector with
    | Some m => Ok m
    | None => Raise (OtherException "SelectorSyntaxError")
    end
  else if has_char (chr ".") selector then
    match split (chr ".") selector with
    | [tag; class_name] => Ok (ByClass tag class_name)
    | _ => Raise ValueError
    end
  else if has_char (chr "#") selector then
    match split (chr "#") selector with
    | [tag; id_name] => Ok (ById tag id_name)
    | _ => Raise ValueError
    end
  else Ok (ByName selector).

Definition matches (m : matcher) (name : str) (a : attrs) : bool :=
  match m with
  | ByCss tag attr value => Py.eqb name tag && attr_is attr value a
  | ByClass tag class_name => Py.eqb name tag && has_class_in [class_name] a
  | ById tag id_name => Py.eqb name tag && attr_is (u "id") id_name a
  | ByName tag => Py.eqb name tag
  end.

(** Lines 115-117.  [find_all] lists the candidates below the body element
    in document order, so a tag is looked at after its ancestors and before
    anything below it: when its turn comes, either an ancestor has been
    decomposed (and the tag with it), or its own subtree is as parsed.  The
    loop is therefore this top-down pass. *)
Definition decorative : list str :=
  map u [ "script"; "style"; "ins"; "iframe"; "noscript"; "img"; "figure";
          "ul"; "ol"; "blockquote"; "a"; "strong"; "em" ]%string.

Definition always_removed : list str :=
  map u [ "script"; "style"; "ins"; "iframe"; "noscript" ]%string.

Definition name_in (names : list str) (name : str) : bool :=
  existsb (Py.eqb name) names.

Fixpoint decompose_decorative (n : node) : list node :=
  match n with
  | Tag name a cs =>
    if name_in decorative name
       && (Py.eqb (strip (get_text [] n)) [] || name_in always_removed name)
    then []
    else [Tag name a (flat_map decompose_decorative cs)]
  | _ => [n]
  end.

(** The [for] loop of lines 100-123.  [visited] lists the selectors that
    were tried; [broke] says that the loop was left by its [break]. *)
Record scan_state : Type := {
  sc_soup : soup;
  sc_body : str;
  sc_visited : list str;
  sc_broke : bool
}.

Fixpoint scan_selectors (selectors : list str) (sp : soup) (body : str)
         (visited : list str) : result scan_state :=
  match selectors with
  | [] =>
    Ok {| sc_soup := sp; sc_body := body;
          sc_visited := visited; sc_broke := false |}
  | selector :: rest =>
    bind (dispatch selector) (fun m =>
      match update (matches m) (flat_map decompose_decorative) sp with
      | Some (body_element, sp') =>
        let body' := normalize (get_text [space] body_element) in
        if 150 <? len body' then
          Ok {| sc_soup := sp'; sc_body := body';
                sc_visited := visited ++ [selector]; sc_broke := true |}
        else scan_selectors rest sp' body' (visited ++ [selector])
      | None => scan_selectors rest sp body (visited ++ [selector])
      end)
  end.

(** Lines 127-129. *)
Definition excluded_classes : list str :=
  map u [ "reply"; "footer"; "copyright"; "ad_unit" ]%string.

Definition valid_paragraphs (sp : soup) : list node :=
  map fst
    (filter (fun pa =>
               (20 <? len (get_text [] (fst pa)))
               && negb (has_parent_with_class excluded_classes (snd pa)))
            (find_all (u "p") sp)).

(** Lines 130-132: [temp_body], when there is a valid paragraph. *)
Definition paragraph_text (sp : soup) : option str :=
  match valid_paragraphs sp with
  | [] => None
  | ps => Some (normalize (join [space] (map (get_text [space]) ps)))
  end.

(** One run of lines 73-137, with what happened on the way. *)
Record body_run : Type := {
  visited : list str;          (* the selectors tried, in order *)
  broke : bool;                (* the scan ended by [break] *)
  scan_body : str;             (* [body] after the loop *)
  fallback_executed : bool;    (* lines 127-134 were entered *)
  temp_body : option str;      (* [temp_body] of line 132, if computed *)
  body_out : str               (* [body] after line 137 *)
}.

Definition extract_body (sp : soup) : result body_run :=
  bind (scan_selectors possible_body_selectors sp [] []) (fun st =>
    let body := sc_body st in
    let fallback :=
      match body with [] => true | _ => len body <? 150 end in
    let temp := if fallback then paragraph_text (sc_soup st) else None in
    let body1 :=
      match temp with
      | Some t => if 100 <? len t then t else body
      | None => body
      end in
    let body2 := match body1 with [] => no_body | _ => body1 end in
    Ok {| visited := sc_visited st; broke := sc_broke st;
          scan_body := body; fallback_executed := fallback;
          temp_body := temp; body_out := body2 |}).

(** ** Source (lines 139-151) *)

(** [[a-zA-Z0-9-]] *)
Definition label_char (c : char) : bool :=
  (((0x61 <=? c) && (c <=? 0x7A)) || ((0x41 <=? c) && (c <=? 0x5A))
   || ((0x30 <=? c) && (c <=? 0x39)) || (c =? 0x2D))%N.

(** [[^/]] *)
Definition not_slash (c : char) : bool := negb (N.eqb c (chr "/")).

Definition suffixes : list str :=
  map u [ "co.kr"; "com"; "net"; "org"; "kr"; "io"; "dev"; "ai"; "app";
          "info"; "biz"; "tv"; "news"; "me"; "blog"; "cc"; "xyz" ]%string.

(** The pattern of line 140: [https?://], then [(?:www\.)?], then group 1,
    then [/?]; group 1 is [[a-zA-Z0-9-]+], a dot, one of the suffixes
    [co\.kr|com|net|...|xyz] in this order, and [[^/]] repeated ([*]). *)
Definition source_pattern : Re.regex :=
  Re.cats
    [ Re.lit (u "http"); Re.Opt (Re.Chr (chr "s")); Re.lit (u "://");
      Re.Opt (Re.lit (u "www."));
      Re.Group
        (Re.cats [ Re.Plus label_char; Re.Chr (chr ".");
                   Re.alts (map Re.lit suffixes);
                   Re.Star not_slash ]);
      Re.Opt (Re.Chr (chr "/")) ].

(** [l[0]] and [l[-2]] *)
Definition index_0 (l : list str) : result str :=
  match l with
  | x :: _ => Ok x
  | [] => Raise IndexError
  end.

Definition index_minus_2 (l : list str) : result str :=
  match rev l with
  | _ :: x :: _ => Ok x
  | _ => Raise IndexError
  end.

(** Lines 140-148. *)
Definition domain_label (url : str) : result str :=
  match Re.search source_pattern url with
  | Some (Some ((_ :: _) as domain_full), _) =>
    if contains (u ".co.kr") domain_full
    then index_0 (split (chr ".") domain_full)
    else index_minus_2 (split (chr ".") domain_full)
  | _ => Ok unknown_source
  end.

Definition extract_source (url : str) : result str :=
  bind (domain_label url) (fun source =>
    let source := strip (remove_char (chr "-") source) in
    match source with
    | [] => Ok unknown_source
    | _ => Ok source
    end).

(** ** The function (lines 39-160) *)

Definition triple : Type := str * str * str.

(** Lines 66-153: what is done with the decoded text. *)
Definition parse_and_extract (e : env) (text_content url : str)
  : result triple :=
  bind (parse e text_content) (fun sp =>
  bind (extract_title (string_depth e) sp) (fun title =>
  bind (extract_body sp) (fun run =>
  bind (extract_source url) (fun source =>
  Ok (title, body_out run, source))))).

(** The body of the [try]: its outcome and the Streamlit calls made. *)
Definition try_block (e : env) (url : str) : result triple * list st_call :=
  match requests_get e url with
  | Raise x => (Raise x, [])
  | Ok r =>
    match raise_for_status r with
    | Raise x => (Raise x, [])
    | Ok _ =>
      match decode_response e r url with
      | (Raise x, calls) => (Raise x, calls)
      | (Ok text_content, calls) =>
        (parse_and_extract e text_content url, calls)
      end
    end
  end.

Definition empty_triple : triple := ([], [], []).
Definition sentinel_triple : triple := (no_title, no_body, unknown_source).

Definition extract_info_from_url (e : env) (url : str)
  : triple * list st_call :=
  match try_block e url with
  | (Ok t, calls) => (t, calls)
  | (Raise (RequestException x), calls) =>
    (empty_triple, calls ++ [st_error_request x])
  | (Raise x, calls) =>
    (sentinel_triple, calls ++ [st_warning_unexpected x])
  end.

(** The fetch of lines 45-46 succeeded. *)
Definition fetched (e : env) (url : str) (r : response) : Prop :=
  requests_get e url = Ok r /\ raise_for_status r = Ok tt.

(** ** Predicates used in the statements *)

(** No two whitespace characters in a row. *)
Fixpoint no_whitespace_run (s : str) : bool :=
  match s with
  | c :: t =>
    match t with
    | d :: _ => negb (isspace c && isspace d)
    | [] => true
    end && no_whitespace_run t
  | [] => true
  end.

(** Every whitespace character is one space, and no two are adjacent. *)
Fixpoint tidy (s : str) : bool :=
  match s with
  | c :: t =>
    (if isspace c
     then N.eqb c space
          && match t with d :: _ => negb (isspace d) | [] => true end
     else true)
    && tidy t
  | [] => true
  end.



(** The dispatch of lines 102-111 raises nothing on [selector]. *)
Definition dispatches (selector : str) : bool :=
  match dispatch selector with
  | Ok _ => true
  | Raise _ => false
  end.

(** An exception of the [requests] family. *)
Definition is_request_exception (x : exn) : bool :=
  match x with
  | RequestException _ => true
  | _ => false
  end.

(** ** The legacy-encoding condition, as the specification words it

    "The declared charset indicates the legacy Korean encoding, or the
    URL's domain matches a known legacy-encoding publisher."  The host of a
    URL is what stands between [://] and the next [/], [?] or [#]; a domain
    matches a publisher when it is the publisher's domain or a subdomain of
    it.  To be compared with [euc_kr_override], which is line 57. *)

Fixpoint after_scheme (url : str) : option str :=
  match strip_prefix (u "://") url with
  | Some rest => Some rest
  | None =>
    match url with
    | [] => None
    | _ :: t => after_scheme t
    end
  end.

Fixpoint take_while (p : char -> bool) (s : str) : str :=
  match s with
  | c :: t => if p c then c :: take_while p t else []
  | [] => []
  end.

Definition host_char (c : char) : bool :=
  negb (N.eqb c (chr "/") || N.eqb c (chr "?") || N.eqb c (chr "#")).

Definition spec_url_host (url : str) : str :=
  match after_scheme url with
  | Some rest => take_while host_char rest
  | None => []
  end.

Definition endswith (suffix s : str) : bool :=
  startswith (rev suffix) (rev s).

Definition spec_domain_matches (publisher url : str) : bool :=
  let host := lower (spec_url_host url) in
  Py.eqb host publisher || endswith (chr "." :: publisher) host.

Definition spec_charset_is_euc_kr (r : response) : bool :=
  contains charset_euc_kr
    (lower (match content_type r with Some v => v | None => [] end)).

Definition spec_legacy_override (r : response) (url : str) : bool :=
  spec_charset_is_euc_kr r || spec_domain_matches dt_co_kr url.

(** ** Concrete pages and calls *)

Module Samples.

(** A codec that maps nothing: every byte is unmappable. *)
Definition unmapped : Codec.codec := fun _ => Codec.Malformed 0.

(** A codec that maps the ASCII range and nothing else. *)
Definition ascii_only : Codec.codec :=
  fun bs =>
    match bs with
    | b :: _ => if (b <? 0x80)%N then Codec.Decoded b 0 else Codec.Malformed 0
    | [] => Codec.Malformed 0
    end.

Definition utf8_html : option str := Some (u "text/html; charset=utf-8").

(** A server that answers every URL with the same page, which the parser
    turns into [tree]. *)
Definition serving (page : string) (tree : soup) : env :=
  {| requests_get := fun _ =>
       Ok {| status_code := 200;
             text := u page;
             content := bytes_of_string page;
             content_type := utf8_html |};
     euc_kr := ascii_only;
     BeautifulSoup := fun _ => Parsed tree;
     string_depth := 900 |}.

(** A server that answers every URL with the given HTTP status and an
    empty page. *)
Definition answering_status (status : N) : env :=
  {| requests_get := fun _ =>
       Ok {| status_code := status;
             text := [];
             content := [];
             content_type := None |};
     euc_kr := ascii_only;
     BeautifulSoup := fun _ => Parsed [];
     string_depth := 900 |}.

(** A call of [requests.get] that raises [x]. *)
Definition raising (x : exn) : env :=
  {| requests_get := fun _ => Raise x;
     euc_kr := ascii_only;
     BeautifulSoup := fun _ => Parsed [];
     string_depth := 900 |}.

(** A parser that rejects what it is given. *)
Definition parser_failing (page : string) : env :=
  {| requests_get := requests_get (serving page []);
     euc_kr := ascii_only;
     BeautifulSoup := fun _ => ParserRaised "ParserRejectedMarkup";
     string_depth := 900 |}.

Definition example_url : str := u "https://www.example.com/article/1".

(** A page whose [og:title] has a content of three spaces. *)
Definition blank_og_title_html : string :=
  "<html><head><meta property='og:title' content='   '></head><body></body></html>".

Definition blank_og_title_tree : soup :=
  [ Tag (u "html") []
      [ Tag (u "head") []
          [ Tag (u "meta")
              [ (u "property", u "og:title"); (u "content", u "   ") ] [] ];
        Tag (u "body") [] [] ] ].

(** A page whose [title] element holds one space. *)
Definition blank_title_html : string :=
  "<html><head><title> </title></head><body></body></html>".

Definition blank_title_tree : soup :=
  [ Tag (u "html") []
      [ Tag (u "head") [] [ Tag (u "title") [] [ NavigableString (u " ") ] ];
        Tag (u "body") [] [] ] ].

(** A page whose only body container holds a short text. *)
Definition short_article_html : string :=
  "<html><body><article>Breaking news.</article></body></html>".

Definition short_article_tree : soup :=
  [ Tag (u "html") []
      [ Tag (u "body") []
          [ Tag (u "article") [] [ NavigableString (u "Breaking news.") ] ] ] ].

(** A page whose [div.article_view] holds exactly 150 characters and whose
    [article] holds a short text. *)
Definition text_150 : str := repeat (chr "a") 150.

Definition exactly_150_tree : soup :=
  [ Tag (u "html") []
      [ Tag (u "body") []
          [ Tag (u "div") [ (u "class", u "article_view") ]
              [ NavigableString text_150 ];
            Tag (u "article") [] [ NavigableString (u "short") ] ] ] ].

(** A page whose [div.article_view] holds 151 characters. *)
Definition text_151 : str := repeat (chr "a") 151.

Definition over_150_tree : soup :=
  [ Tag (u "html") []
      [ Tag (u "body") []
          [ Tag (u "div") [ (u "class", u "article_view") ]
              [ NavigableString text_151 ];
            Tag (u "article") [] [ NavigableString (u "short") ] ] ] ].

(** A URL of another site that mentions [dt.co.kr] in its query, served
    as UTF-8. *)
Definition referring_url : str :=
  u "https://www.example.com/view?ref=dt.co.kr".

Definition utf8_response : response :=
  {| status_code := 200;
     text := u "<html><body><p>café</p></body></html>";
     content := bytes_of_string "<html><body><p>café</p></body></html>";
     content_type := utf8_html |}.

(** A page whose [title] holds its text under 1100 nested tags, more
    than the interpreter allows [Tag.string] to follow. *)
Fixpoint nested (k : nat) (n : node) : node :=
  match k with
  | O => n
  | S k' => Tag (u "b") [] [nested k' n]
  end.

Definition deep_title_tree : soup :=
  [ Tag (u "html") []
      [ Tag (u "head") []
          [ Tag (u "title") [] [ nested 1100 (NavigableString (u "x")) ] ];
        Tag (u "body") [] [] ] ].

(** URLs for the source examples of the specification. *)
Definition news_example_co_kr : str := u "http://news.example.co.kr/".
Definition www_example_com : str := u "https://www.example.com/".
Definition news_naver_com : str :=
  u "https://news.naver.com/main/read.naver?mode=LSD&mid=shm&sid1=105&oid=001&aid=0012345678".

(** A response declared as [euc-kr] whose bytes end in two that no
    double-byte table maps, fetched from the legacy publisher. *)
Definition legacy_url : str :=
  u "https://www.dt.co.kr/contents.html?article_no=2024010102".

Definition legacy_response : response :=
  {| status_code := 200;
     text := u "<html><body>news</body></html>";
     content :=
       bytes_of_string "<html><body>news</body></html>" ++ [0xFF; 0xFE]%N;
     content_type := Some (u "text/html; charset=EUC-KR") |}.

(** The response to the page [page], as [serving] gives it. *)
Definition response_of (page : string) : response :=
  {| status_code := 200;
     text := u page;
     content := bytes_of_string page;
     content_type := utf8_html |}.

End Samples.

(** ** What a pattern matches

    [matched r g s g' s']: pattern [r], started on input [s] with group 1
    equal to [g], can end with input [s'] left and group 1 equal to [g'].
    This is the declarative reading of the patterns, used to say what a
    successful [m] has found. *)

Fixpoint matched (r : Re.regex) (g : option str) (s : str)
         (g' : option str) (s' : str) : Prop :=
  match r with
  | Re.Eps => g' = g /\ s' = s
  | Re.Chr c => s = c :: s' /\ g' = g
  | Re.Cls p => exists x, s = x :: s' /\ p x = true /\ g' = g
  | Re.Cat r1 r2 =>
    exists gm sm, matched r1 g s gm sm /\ matched r2 gm sm g' s'
  | Re.Alt r1 r2 => matched r1 g s g' s' \/ matched r2 g s g' s'
  | Re.Opt r1 => matched r1 g s g' s' \/ (g' = g /\ s' = s)
  | Re.Star p => exists w, s = w ++ s' /\ forallb p w = true /\ g' = g
  | Re.Plus p =>
    exists x w, s = x :: w ++ s' /\ p x = true /\ forallb p w = true
                /\ g' = g
  | Re.Group r1 =>
    exists gi, matched r1 g s gi s'
               /\ g' = Some (firstn (len s - len s') s)
  end.

(** [c not in s] *)
Definition lacks (c : char) (s : str) : Prop := ~ In c s.

(** ** The parse tree: induction and what lies in a subtree *)

(** Induction on a tree, with the property known of the contents. *)
Fixpoint node_induction (P : node -> Prop)
         (HS : forall s, P (NavigableString s))
         (HC : forall s, P (Comment s))
         (HT : forall name a cs, Forall P cs -> P (Tag name a cs))
         (n : node) : P n :=
  match n with
  | NavigableString s => HS s
  | Comment s => HC s
  | Tag name a cs =>
    HT name a cs
       ((fix all (l : list node) : Forall P l :=
           match l with
           | [] => @Forall_nil node P
           | x :: l' =>
             @Forall_cons node P x l' (node_induction HS HC HT x) (all l')
           end) cs)
  end.

(** Some tag among [n] and what is below it has its name in [names]. *)
Fixpoint has_tag_named (names : list str) (n : node) : bool :=
  match n with
  | Tag name _ cs => name_in names name || existsb (has_tag_named names) cs
  | _ => false
  end.

(** [subsequence a b]: [a] is [b] with some elements left out. *)
Inductive subsequence : list str -> list str -> Prop :=
| subsequence_nil : subsequence [] []
| subsequence_skip (x : str) (a b : list str) :
    subsequence a b -> subsequence a (x :: b)
| subsequence_keep (x : str) (a b : list str) :
    subsequence a b -> subsequence (x :: a) (x :: b).

(** ** The button handler (lines 288-385)

    What the widgets hold, by checking mode: in each mode the inputs of
    the other modes are the empty strings of lines 288-290. *)

Inductive form : Type :=
| TitleOnly (title_input : str)
| TitleAndBody (title_input body_input : str)
| Link (link_input : str).

(** The Streamlit calls of the handler, up to the model call. *)
Inductive ui_call : Type :=
| warning_title_empty                 (* line 339 *)
| warning_title_and_body_empty        (* line 345 *)
| warning_link_empty                  (* line 360 *)
| extraction (c : st_call)            (* inside extract_info_from_url *)
| error_not_loaded                    (* line 367 *)
| error_no_content                    (* line 370 *)
| success_title (title : str)         (* line 374 *)
| info_source (source : str)          (* line 375 *)
| preview (shown : str)               (* line 378 *)
| warning_no_body                     (* line 380 *)
| warning_nothing_to_analyze.         (* line 384 *)

(** The handler either stops ([st.stop()]) or goes on to the model with
    [text_to_analyze] and [accuracy_hint]. *)
Inductive prepared : Type :=
| Stopped (calls : list ui_call)
| Ready (text_to_analyze accuracy_hint : str) (calls : list ui_call).

Definition hint_title_only : str := u "정확도: 낮음 (제목만 사용)".
Definition hint_body_only : str := u "정확도: 보통 (본문만 사용)".
Definition hint_title_and_body : str := u "정확도: 높음 (제목 + 본문 사용)".
Definition hint_link : str := u "정확도: 높음 (제목 + 본문 + 출처 사용)".

(** [not s.strip()] *)
Definition blank (s : str) : bool :=
  match strip s with
  | [] => true
  | _ => false
  end.

(** [not s] *)
Definition empty (s : str) : bool :=
  match s with
  | [] => true
  | _ => false
  end.

(** Line 378: [body[:500] + "..." if len(body) > 500 else body] *)
Definition body_preview (body : str) : str :=
  if 500 <? len body then firstn 500 body ++ u "..." else body.

(** Lines 337-380: the text and the hint, or the calls before [st.stop()]. *)
Definition collect (e : env) (f : form)
  : list ui_call + (str * str * list ui_call) :=
  match f with
  | TitleOnly title_input =>
    if blank title_input then inl [warning_title_empty]
    else inr (title_input, hint_title_only, [])
  | TitleAndBody title_input body_input =>
    if blank title_input && blank body_input
    then inl [warning_title_and_body_empty]
    else if negb (blank title_input) && blank body_input
    then inr (title_input, hint_title_only, [])
    else if blank title_input && negb (blank body_input)
    then inr (body_input, hint_body_only, [])
    else inr (title_input ++ [space] ++ body_input, hint_title_and_body, [])
  | Link link_input =>
    if blank link_input then inl [warning_link_empty]
    else
      match extract_info_from_url e link_input with
      | ((title_extracted, body_extracted, source_extracted), calls) =>
        let made := map extraction calls in
        if empty title_extracted && empty body_extracted
        then inl (made ++ [error_not_loaded])
        else if Py.eqb title_extracted no_title
                && Py.eqb body_extracted no_body
        then inl (made ++ [error_no_content])
        else
          inr (title_extracted ++ [space] ++ body_extracted
               ++ [space] ++ source_extracted,
               hint_link,
               made ++ [ success_title title_extracted;
                         info_source source_extracted;
                         if negb (Py.eqb body_extracted no_body)
                         then preview (body_preview body_extracted)
                         else warning_no_body ])
      end
  end.

(** Lines 337-385. *)
Definition prepare (e : env) (f : form) : prepared :=
  match collect e f with
  | inl calls => Stopped calls
  | inr (text_to_analyze, accuracy_hint, calls) =>
    if blank text_to_analyze
    then Stopped (calls ++ [warning_nothing_to_analyze])
    else Ready text_to_analyze accuracy_hint calls
  end.

Definition calls_of (p : prepared) : list ui_call :=
  match p with
  | Stopped calls => calls
  | Ready _ _ calls => calls
  end.

(* ===================================================================== *)
(** * Part II.  Properties                                                *)
(* ===================================================================== *)

(** ** Strings *)

Lemma eqb_eq (a b : str) : Py.eqb a b = true <-> a = b.
Proof.
  revert b; induction a as [|x a IH]; intros [|y b]; simpl;
    try (split; [discriminate | congruence]); try tauto.
  rewrite andb_true_iff, N.eqb_eq, IH. split.
  - intros [-> ->]; reflexivity.
  - intros H; injection H; auto.
Qed.

Lemma eqb_refl (a : str) : Py.eqb a a = true.
Proof. apply eqb_eq; reflexivity. Qed.

Lemma isspace_space : isspace space = true.
Proof. reflexivity. Qed.

Lemma drop_while_split (p : char -> bool) (l : str) :
  exists w, l = w ++ drop_while p l /\ forallb p w = true.
Proof.
  induction l as [|c l [w [E F]]]; simpl.
  - exists []; auto.
  - destruct (p c) eqn:Hc.
    + exists (c :: w); simpl; rewrite Hc, F; split; [f_equal; exact E | reflexivity].
    + exists []; auto.
Qed.

Lemma drop_while_head (p : char -> bool) (l : str) :
  match drop_while p l with
  | c :: _ => p c = false
  | [] => True
  end.
Proof.
  induction l as [|c l IH]; simpl; auto.
  destruct (p c) eqn:Hc; auto.
Qed.

Lemma drop_while_fix (p : char -> bool) (l : str) :
  match l with c :: _ => p c = false | [] => True end ->
  drop_while p l = l.
Proof. destruct l as [|c l]; simpl; auto. intros ->; reflexivity. Qed.

Lemma drop_while_idem (p : char -> bool) (l : str) :
  drop_while p (drop_while p l) = drop_while p l.
Proof. apply drop_while_fix, drop_while_head. Qed.

Lemma drop_while_length (p : char -> bool) (l : str) :
  len (drop_while p l) <= len l.
Proof.
  induction l as [|c l IH]; simpl; auto.
  destruct (p c); simpl; unfold len in *; lia.
Qed.

Lemma skipn_drop_while (p : char -> bool) (l : str) :
  skipn (len l - len (drop_while p l)) l = drop_while p l.
Proof.
  unfold len. induction l as [|c l IH]; [reflexivity|].
  cbn [drop_while]. destruct (p c) eqn:Hc.
  - pose proof (drop_while_length p l) as L. unfold len in L.
    cbn [List.length].
    replace (S (List.length l) - List.length (drop_while p l))
      with (S (List.length l - List.length (drop_while p l))) by lia.
    cbn [skipn]. exact IH.
  - rewrite Nat.sub_diag. reflexivity.
Qed.

Lemma rstrip_prefix (s : str) :
  exists w, s = rstrip s ++ w /\ forallb isspace w = true.
Proof.
  unfold rstrip.
  destruct (drop_while_split isspace (rev s)) as [w [E F]].
  exists (rev w). split.
  - rewrite <- rev_app_distr, <- E, rev_involutive. reflexivity.
  - rewrite forallb_forall in *. intros x Hx. apply F, in_rev, Hx.
Qed.

Lemma rstrip_idem (s : str) : rstrip (rstrip s) = rstrip s.
Proof.
  unfold rstrip. rewrite rev_involutive, drop_while_idem. reflexivity.
Qed.

Lemma lstrip_rstrip_lstrip (s : str) :
  lstrip (rstrip (lstrip s)) = rstrip (lstrip s).
Proof.
  unfold lstrip at 1. apply drop_while_fix.
  pose proof (drop_while_head isspace s) as H.
  fold (lstrip s) in H.
  destruct (rstrip_prefix (lstrip s)) as [w [E _]].
  destruct (rstrip (lstrip s)) as [|c r]; auto.
  rewrite E in H. exact H.
Qed.

Lemma strip_idem (s : str) : strip (strip s) = strip s.
Proof.
  unfold strip. rewrite lstrip_rstrip_lstrip. apply rstrip_idem.
Qed.

(** ** The whitespace pattern *)

Lemma star_k_total (A : Type) (p : char -> bool) (f : str -> A) (s : str) :
  Re.star_k p s (fun s' => Some (f s')) = Some (f (drop_while p s)).
Proof.
  induction s as [|c s IH]; simpl; auto.
  destruct (p c); auto. rewrite IH. reflexivity.
Qed.

Lemma match_whitespace_run (c : char) (t : str) :
  Re.match_at whitespace_run (c :: t) =
  if isspace c then Some (None, drop_while isspace t) else None.
Proof.
  unfold Re.match_at, whitespace_run. cbn [Re.m].
  destruct (isspace c); auto.
  apply (star_k_total isspace (fun s' => (@None str, s'))).
Qed.

Lemma sub_go_skip (r : Re.regex) (repl : str) (n : nat) (s : str) :
  Re.sub_go r repl n s = Re.sub_go r repl 0 (skipn n s).
Proof.
  revert n; induction s as [|c s IH]; intros [|n]; try reflexivity.
  cbn [Re.sub_go skipn]. apply IH.
Qed.

(** The equations of [re.sub(r'\s+', ' ', s)]. *)
Lemma sub_whitespace_nil : Re.sub whitespace_run [space] [] = [].
Proof. reflexivity. Qed.

Lemma sub_whitespace_cons (c : char) (t : str) :
  Re.sub whitespace_run [space] (c :: t) =
  if isspace c
  then space :: Re.sub whitespace_run [space] (drop_while isspace t)
  else c :: Re.sub whitespace_run [space] t.
Proof.
  unfold Re.sub. cbn [Re.sub_go]. rewrite match_whitespace_run.
  destruct (isspace c); auto.
  pose proof (drop_while_length isspace t) as L.
  pose proof (skipn_drop_while isspace t) as K.
  unfold len in *. cbn [List.length].
  replace (S (List.length t) - List.length (drop_while isspace t))
    with (S (List.length t - List.length (drop_while isspace t))) by lia.
  rewrite sub_go_skip, K. reflexivity.
Qed.

Lemma sub_whitespace_head (s : str) :
  match s with c :: _ => isspace c = false | [] => True end ->
  match Re.sub whitespace_run [space] s with
  | d :: _ => isspace d = false
  | [] => True
  end.
Proof.
  destruct s as [|c t]; [exact (fun H => H)|].
  intros H. rewrite sub_whitespace_cons, H. exact H.
Qed.

Lemma sub_whitespace_tidy (s : str) :
  tidy (Re.sub whitespace_run [space] s) = true.
Proof.
  remember (len s) as n eqn:E.
  revert s E. induction n as [n IH] using lt_wf_ind. intros s E.
  destruct s as [|c t]; [reflexivity|].
  rewrite sub_whitespace_cons. destruct (isspace c) eqn:Hc.
  - cbn [tidy]. rewrite isspace_space, N.eqb_refl.
    pose proof (drop_while_length isspace t) as L.
    rewrite (IH (len (drop_while isspace t))); unfold len in *;
      [ | subst n; simpl; lia | reflexivity ].
    pose proof (sub_whitespace_head (drop_while isspace t)
                  (drop_while_head isspace t)) as H.
    destruct (Re.sub whitespace_run [space] (drop_while isspace t));
      [reflexivity | rewrite H; reflexivity].
  - cbn [tidy]. rewrite Hc.
    rewrite (IH (len t)); unfold len in *;
      [reflexivity | subst n; simpl; lia | reflexivity].
Qed.

Lemma sub_whitespace_fix (s : str) :
  tidy s = true -> Re.sub whitespace_run [space] s = s.
Proof.
  induction s as [|c t IH]; [reflexivity|].
  cbn [tidy]. rewrite andb_true_iff. intros [H T].
  rewrite sub_whitespace_cons. destruct (isspace c) eqn:Hc.
  - apply andb_true_iff in H. destruct H as [Hs Hn].
    apply N.eqb_eq in Hs. subst c.
    rewrite drop_while_fix, (IH T); [reflexivity|].
    destruct t; [exact I | apply negb_true_iff, Hn].
  - rewrite (IH T). reflexivity.
Qed.

Lemma tidy_app_l (a b : str) : tidy (a ++ b) = true -> tidy a = true.
Proof.
  induction a as [|c a IH]; [reflexivity|].
  cbn [app tidy]. rewrite !andb_true_iff. intros [H T].
  split; [|exact (IH T)].
  destruct (isspace c); [|reflexivity].
  apply andb_true_iff in H. destruct H as [-> H].
  destruct a; [reflexivity | exact H].
Qed.

Lemma tidy_drop_while (p : char -> bool) (s : str) :
  tidy s = true -> tidy (drop_while p s) = true.
Proof.
  induction s as [|c t IH]; [reflexivity|].
  intros T. cbn [drop_while]. destruct (p c); [|exact T].
  apply IH. cbn [tidy] in T. apply andb_true_iff in T. tauto.
Qed.

Lemma tidy_strip (s : str) : tidy s = true -> tidy (strip s) = true.
Proof.
  intros T. unfold strip.
  destruct (rstrip_prefix (lstrip s)) as [w [E _]].
  apply (tidy_app_l _ w). rewrite <- E.
  apply tidy_drop_while, T.
Qed.

Lemma tidy_no_whitespace_run (s : str) :
  tidy s = true -> no_whitespace_run s = true.
Proof.
  induction s as [|c t IH]; [reflexivity|].
  cbn [tidy no_whitespace_run]. rewrite !andb_true_iff. intros [H T].
  split; [|exact (IH T)].
  destruct t as [|d t']; [reflexivity|].
  destruct (isspace c); [|reflexivity].
  apply andb_true_iff in H. destruct H as [_ H].
  apply negb_true_iff in H. rewrite H. reflexivity.
Qed.

Lemma normalize_tidy (s : str) : tidy (normalize s) = true.
Proof. apply tidy_strip, sub_whitespace_tidy. Qed.

Lemma normalize_no_whitespace_run (s : str) :
  no_whitespace_run (normalize s) = true.
Proof. apply tidy_no_whitespace_run, normalize_tidy. Qed.

(** C9.  Whitespace normalization, [re.sub(r'\s+', ' ', s).strip()], is
    idempotent: normalizing a normalized string returns it unchanged. *)
Theorem C9_normalize_idempotent (s : str) :
  normalize (normalize s) = normalize s.
Proof.
  unfold normalize at 1.
  rewrite (sub_whitespace_fix _ (normalize_tidy s)).
  unfold normalize. apply strip_idem.
Qed.

(** ** Decoding with [errors='replace'] *)

Lemma decode_replace_total (cd : Codec.codec) (bs : bytes) (n : nat) :
  exists s, Codec.decode_go cd Codec.Replace n bs = Ok s.
Proof.
  revert n. induction bs as [|b t IH]; intros n; simpl.
  - exists []; reflexivity.
  - destruct n as [|n]; [|apply IH].
    destruct (cd (b :: t)) as [c k|k]; destruct (IH k) as [s ->]; simpl;
      eexists; reflexivity.
Qed.

Lemma decode_strict_failure_replaced (cd : Codec.codec) (bs : bytes) :
  forall (n : nat) (x : exn) (s : str),
    Codec.decode_go cd Codec.Strict n bs = Raise x ->
    Codec.decode_go cd Codec.Replace n bs = Ok s ->
    In Codec.replacement_character s.
Proof.
  induction bs as [|b t IH]; intros n x s; simpl; [discriminate|].
  destruct n as [|n]; [|apply IH].
  destruct (cd (b :: t)) as [c k|k].
  - destruct (Codec.decode_go cd Codec.Strict k t) as [a|y] eqn:S1;
      [discriminate|].
    destruct (Codec.decode_go cd Codec.Replace k t) as [a|z] eqn:R1;
      [|discriminate].
    simpl. intros _ E. injection E as <-. right.
    exact (IH k y a S1 R1).
  - destruct (Codec.decode_go cd Codec.Replace k t) as [a|z];
      [|discriminate].
    simpl. intros _ E. injection E as <-. left. reflexivity.
Qed.

Lemma decode_go_skip (cd : Codec.codec) (err : Codec.errors) (bs : bytes) :
  forall n, Codec.decode_go cd err n bs
            = Codec.decode_go cd err 0 (skipn n bs).
Proof.
  induction bs as [|b t IH]; intros [|n]; try reflexivity.
  cbn [Codec.decode_go skipn]. apply IH.
Qed.

Lemma decode_replace_replaced (cd : Codec.codec) (bs : bytes) (t : str) :
  Codec.decode cd Codec.Replace bs = Ok t -> Codec.replaced cd bs t.
Proof.
  unfold Codec.decode. remember (List.length bs) as n eqn:E.
  revert bs t E. induction n as [n IH] using lt_wf_ind. intros bs t E.
  destruct bs as [|b r]; cbn [Codec.decode_go].
  - intros H. injection H; intros <-. constructor.
  - assert (L : List.length (skipn 0 r) <= List.length r) by (cbn; lia).
    assert (K : forall k, List.length (skipn k r) < n).
    { intros k. rewrite length_skipn. subst n. cbn. lia. }
    destruct (cd (b :: r)) as [c k|k] eqn:C; rewrite decode_go_skip;
      destruct (Codec.decode_go cd Codec.Replace 0 (skipn k r)) as [t0|]
        eqn:D; cbn [bind]; try discriminate;
      intros H; injection H; intros <-.
    + apply (@Codec.replaced_mapped cd b r c k t0 C).
      exact (IH _ (K k) _ _ eq_refl D).
    + apply (@Codec.replaced_unmapped cd b r k t0 C).
      exact (IH _ (K k) _ _ eq_refl D).
Qed.

Lemma decode_response_override (e : env) (r : response) (url : str) :
  euc_kr_override r url = true ->
  exists t,
    Codec.decode (euc_kr e) Codec.Replace (content r) = Ok t /\
    decode_response e r url = (Ok t, [st_info_redecoded]).
Proof.
  intros H. unfold decode_response. rewrite H.
  destruct (decode_replace_total (euc_kr e) (content r) 0) as [t E].
  exists t. unfold Codec.decode. rewrite E. split; reflexivity.
Qed.

Lemma decode_response_baseline (e : env) (r : response) (url : str) :
  euc_kr_override r url = false ->
  decode_response e r url = (Ok (text r), []).
Proof. intros H. unfold decode_response. rewrite H. reflexivity. Qed.

Lemma decode_response_ok (e : env) (r : response) (url : str) :
  exists t calls,
    decode_response e r url = (Ok t, calls) /\
    ~ In st_warning_euc_kr calls.
Proof.
  destruct (euc_kr_override r url) eqn:H.
  - destruct (decode_response_override e r url H) as [t [_ ->]].
    exists t, [st_info_redecoded]. split; [reflexivity|].
    intros [A|[]]; discriminate.
  - rewrite (decode_response_baseline e r url H).
    exists (text r), []. split; [reflexivity | intros []].
Qed.

(** ** The [try] block and its handlers *)

Lemma try_block_fetched (e : env) (url : str) (r : response) :
  fetched e url r ->
  exists t calls,
    decode_response e r url = (Ok t, calls) /\
    try_block e url = (parse_and_extract e t url, calls).
Proof.
  intros [G S]. destruct (decode_response_ok e r url) as [t [calls [D _]]].
  exists t, calls. split; [exact D|].
  unfold try_block. rewrite G, S, D. reflexivity.
Qed.

Lemma try_block_calls (e : env) (url : str) :
  ~ In st_warning_euc_kr (snd (try_block e url)).
Proof.
  unfold try_block.
  destruct (requests_get e url) as [r|x]; [|intros []].
  destruct (raise_for_status r) as [[]|x]; [|intros []].
  destruct (decode_response_ok e r url) as [t [calls [D N]]].
  rewrite D. exact N.
Qed.

(** C5 as stated fails at two fetches that fail.  When [requests.get]
    raises an exception that is not of the [requests] family (urllib3's
    [LocationParseError] for a host with an empty label), the handler of
    line 158 takes it: the sentinel triple is returned with the parsing
    warning.  And a status that is no success but is not an error status
    either (304) makes [raise_for_status] raise nothing: the page is
    parsed, and no network error is reported. *)
Lemma C5_failed_fetch_outside_the_request_handler :
  extract_info_from_url
    (Samples.raising (OtherException "LocationParseError"))
    (u "http://a..com/")
  = ((no_title, no_body, unknown_source),
     [st_warning_unexpected (OtherException "LocationParseError")])
  /\ sentinel_triple <> empty_triple
  /\ extract_info_from_url (Samples.answering_status 304) Samples.example_url
     = ((no_title, no_body, u "example"), []).
Proof.
  split; [vm_compute; reflexivity|].
  split; [intros H; vm_compute in H; discriminate | vm_compute; reflexivity].
Qed.

(** C5, amended.  When the fetch fails with an exception of the
    [requests] family - [requests.get] raises one (timeout, connection
    failure, ...), or the status is an error status, from 400 to 599, so
    that [raise_for_status] raises [HTTPError] - the function returns three
    empty strings, which is not the sentinel triple, and its one report is
    the network error of line 156, not the parsing warning of line 159. *)
Theorem C5_request_failure_returns_empty_strings
        (e : env) (url : str) (x : request_error) :
  (requests_get e url = Raise (RequestException x)
   \/ exists r, requests_get e url = Ok r
                /\ (400 <= status_code r < 600)%N
                /\ x = HTTPError (status_code r)) ->
  extract_info_from_url e url = (([], [], []), [st_error_request x])
  /\ empty_triple <> sentinel_triple.
Proof.
  intros H. split; [|discriminate].
  unfold extract_info_from_url, try_block.
  destruct H as [G|[r [G [[L U] ->]]]]; rewrite G; [reflexivity|].
  unfold raise_for_status.
  apply N.leb_le in L. apply N.ltb_lt in U. rewrite L, U. reflexivity.
Qed.

Lemma C5_http_404_witness :
  extract_info_from_url (Samples.answering_status 404) Samples.example_url
  = (([], [], []), [st_error_request (HTTPError 404)])
  /\ empty_triple <> sentinel_triple.
Proof.
  apply (C5_request_failure_returns_empty_strings
           (Samples.answering_status 404) Samples.example_url).
  right. eexists. split; [reflexivity|]. split; [|reflexivity].
  cbn. lia.
Defined.

(** ** The selector scan and the paragraph fallback *)

Lemma catalog_dispatches : forallb dispatches possible_body_selectors = true.
Proof. vm_compute. reflexivity. Qed.

Lemma scan_selectors_ok (selectors : list str) :
  forallb dispatches selectors = true ->
  forall sp body seen, exists st,
    scan_selectors selectors sp body seen = Ok st.
Proof.
  induction selectors as [|sel rest IH]; intros D sp body seen.
  - eexists; reflexivity.
  - cbn [forallb] in D. apply andb_true_iff in D. destruct D as [D1 D2].
    unfold dispatches in D1. cbn [scan_selectors].
    destruct (dispatch sel) as [m|]; [|discriminate]. cbn [bind].
    destruct (update (matches m) (flat_map decompose_decorative) sp)
      as [[el sp']|]; [|apply (IH D2)].
    destruct (150 <? len (normalize (get_text [space] el)));
      [eexists; reflexivity | apply (IH D2)].
Qed.

Lemma scan_selectors_inv (selectors : list str) :
  forall sp body seen st,
    scan_selectors selectors sp body seen = Ok st ->
    (tidy body = true -> tidy (sc_body st) = true)
    /\ (sc_broke st = true -> 150 < len (sc_body st))
    /\ (sc_broke st = false -> sc_visited st = seen ++ selectors)
    /\ (exists k, sc_visited st = seen ++ firstn k selectors).
Proof.
  induction selectors as [|sel rest IH]; intros sp body seen st.
  - cbn [scan_selectors]. intros E. injection E; intros <-. cbn.
    split; [auto|]. split; [discriminate|].
    split; [intros _; symmetry; apply app_nil_r|].
    exists 0. symmetry; apply app_nil_r.
  - cbn [scan_selectors].
    destruct (dispatch sel) as [m|]; [|discriminate]. cbn [bind].
    assert (step : forall sp1 body1,
               scan_selectors rest sp1 body1 (seen ++ [sel]) = Ok st ->
               tidy body1 = true ->
               (tidy (sc_body st) = true)
               /\ (sc_broke st = true -> 150 < len (sc_body st))
               /\ (sc_broke st = false -> sc_visited st = seen ++ sel :: rest)
               /\ (exists k, sc_visited st = seen ++ firstn k (sel :: rest))).
    { intros sp1 body1 E T.
      destruct (IH _ _ _ _ E) as [A [B [C [k K]]]].
      rewrite <- app_assoc in C, K. repeat split; auto.
      exists (S k). exact K. }
    destruct (update (matches m) (flat_map decompose_decorative) sp)
      as [[el sp']|].
    + destruct (150 <? len (normalize (get_text [space] el))) eqn:L.
      * intros E. injection E; intros <-. cbn.
        apply Nat.ltb_lt in L. repeat split; auto; try discriminate.
        -- intros _. apply normalize_tidy.
        -- exists 1. reflexivity.
      * intros E.
        destruct (step _ _ E (normalize_tidy _)) as [A [B [C K]]].
        repeat split; auto.
    + intros E. split.
      * intros T. exact (proj1 (step _ _ E T)).
      * destruct (IH _ _ _ _ E) as [_ [B [C [k K]]]].
        rewrite <- app_assoc in C, K. repeat split; auto.
        exists (S k). exact K.
Qed.

Lemma paragraph_text_tidy (sp : soup) (t : str) :
  paragraph_text sp = Some t -> tidy t = true.
Proof.
  unfold paragraph_text. destruct (valid_paragraphs sp); [discriminate|].
  intros E. injection E; intros <-. apply normalize_tidy.
Qed.

Lemma extract_body_ok (sp : soup) : exists run, extract_body sp = Ok run.
Proof.
  unfold extract_body.
  destruct (scan_selectors_ok _ catalog_dispatches sp [] []) as [st ->].
  eexists; reflexivity.
Qed.

Lemma no_body_nonempty : no_body <> [].
Proof. intros H. vm_compute in H. discriminate. Qed.

(** What the body of a run can be. *)
Lemma extract_body_shape (sp : soup) (run : body_run) :
  extract_body sp = Ok run ->
  body_out run <> []
  /\ (body_out run <> no_body ->
      no_whitespace_run (body_out run) = true
      /\ (150 <= len (body_out run)
          \/ (temp_body run = Some (body_out run)
              /\ 100 < len (body_out run))
          \/ (body_out run = scan_body run
              /\ len (body_out run) < 150
              /\ fallback_executed run = true
              /\ forall t, temp_body run = Some t -> len t <= 100))).
Proof.
  unfold extract_body.
  destruct (scan_selectors possible_body_selectors sp [] []) as [st|] eqn:S;
    [|discriminate].
  destruct (scan_selectors_inv _ _ _ _ S) as [T _]. specialize (T eq_refl).
  cbn [bind]. intros E. injection E; intros <-. clear E.
  cbn [body_out temp_body scan_body fallback_executed].
  assert (kept : forall c b tmp,
             sc_body st = c :: b ->
             len (c :: b) < 150 ->
             (forall t, tmp = Some t -> len t <= 100) ->
             c :: b <> [] /\
             (c :: b <> no_body ->
              no_whitespace_run (c :: b) = true /\
              (150 <= len (c :: b)
               \/ (tmp = Some (c :: b) /\ 100 < len (c :: b))
               \/ (c :: b = c :: b /\ len (c :: b) < 150 /\ true = true
                   /\ forall t, tmp = Some t -> len t <= 100)))).
  { intros c b tmp Eb Hs Ht. split; [discriminate|]. intros _. split.
    - apply tidy_no_whitespace_run. rewrite <- Eb. exact T.
    - right; right. repeat split; auto. }
  assert (taken : forall t b,
             paragraph_text (sc_soup st) = Some t ->
             (100 <? len t) = true ->
             match t with [] => no_body | _ :: _ => t end <> [] /\
             (match t with [] => no_body | _ :: _ => t end <> no_body ->
              no_whitespace_run match t with [] => no_body | _ :: _ => t end
              = true /\
              (150 <= len match t with [] => no_body | _ :: _ => t end
               \/ (Some t = Some match t with [] => no_body | _ :: _ => t end
                   /\ 100 < len match t with [] => no_body | _ :: _ => t end)
               \/ (match t with [] => no_body | _ :: _ => t end = b
                   /\ len match t with [] => no_body | _ :: _ => t end < 150
                   /\ true = true
                   /\ forall t0, Some t = Some t0 -> len t0 <= 100)))).
  { intros t b P L. apply Nat.ltb_lt in L.
    destruct t as [|c t']; [cbn in L; lia|].
    split; [discriminate|]. intros _. split.
    - apply tidy_no_whitespace_run, (paragraph_text_tidy _ P).
    - right; left. split; [reflexivity | exact L]. }
  destruct (sc_body st) as [|c b] eqn:Eb.
  - (* nothing was selected *)
    destruct (paragraph_text (sc_soup st)) as [t|] eqn:P.
    + destruct (100 <? len t) eqn:L.
      * apply (taken t []); [first [exact P | reflexivity] | exact L].
      * split; [exact no_body_nonempty | intros H; congruence].
    + split; [exact no_body_nonempty | intros H; congruence].
  - destruct (len (c :: b) <? 150) eqn:F.
    + (* a short selection: the fallback is entered *)
      apply Nat.ltb_lt in F.
      destruct (paragraph_text (sc_soup st)) as [t|] eqn:P.
      * destruct (100 <? len t) eqn:L.
        -- apply (taken t (c :: b)); [first [exact P | reflexivity] | exact L].
        -- apply Nat.ltb_ge in L. apply (kept c b (Some t) eq_refl F).
           intros t0 E0. injection E0; intros <-. exact L.
      * apply (kept c b None eq_refl F). discriminate.
    + (* the fallback is skipped *)
      apply Nat.ltb_ge in F. split; [discriminate|]. intros _. split.
      * apply tidy_no_whitespace_run. exact T.
      * left. exact F.
Qed.

(** The short circuit as the code has it: a scan left by [break] holds a
    body of more than 150 characters, and the fallback is skipped. *)
Lemma break_skips_fallback (sp : soup) (run : body_run) :
  extract_body sp = Ok run ->
  broke run = true ->
  150 < len (scan_body run)
  /\ fallback_executed run = false
  /\ temp_body run = None
  /\ body_out run = scan_body run.
Proof.
  unfold extract_body.
  destruct (scan_selectors possible_body_selectors sp [] []) as [st|] eqn:S;
    [|discriminate].
  destruct (scan_selectors_inv _ _ _ _ S) as [_ [B _]].
  cbn [bind]. intros E. injection E; intros <-. clear E.
  cbn [body_out temp_body scan_body fallback_executed broke]. intros K.
  specialize (B K). split; [exact B|].
  destruct (sc_body st) as [|c b'] eqn:Eb; [cbn in B; lia|].
  assert (F : (len (c :: b') <? 150) = false) by (apply Nat.ltb_ge; lia).
  rewrite F. repeat split.
Qed.

(** ** Source *)

Lemma domain_label_raises (url : str) (x : exn) :
  domain_label url = Raise x -> x = IndexError.
Proof.
  unfold domain_label, index_0, index_minus_2.
  destruct (Re.search source_pattern url) as [[[[|c d]|] rest]|];
    try discriminate.
  destruct (contains (u ".co.kr") (c :: d)).
  - destruct (split (chr ".") (c :: d)) as [|p ps]; [|discriminate].
    intros E; injection E; auto.
  - destruct (rev (split (chr ".") (c :: d))) as [|p [|q qs]];
      try discriminate; intros E; injection E; auto.
Qed.

Lemma extract_source_raises (url : str) (x : exn) :
  extract_source url = Raise x -> x = IndexError.
Proof.
  unfold extract_source.
  destruct (domain_label url) as [s0|y] eqn:D; cbn [bind].
  - destruct (strip (remove_char (chr "-") s0)); discriminate.
  - intros E. injection E; intros <-. exact (domain_label_raises _ D).
Qed.

Lemma unknown_source_nonempty : unknown_source <> [].
Proof. intros H. vm_compute in H. discriminate. Qed.

Lemma extract_source_nonempty (url : str) (src : str) :
  extract_source url = Ok src -> src <> [].
Proof.
  unfold extract_source.
  destruct (domain_label url) as [s0|y]; cbn [bind]; [|discriminate].
  destruct (strip (remove_char (chr "-") s0)); intros E; injection E;
    intros <-; [exact unknown_source_nonempty | discriminate].
Qed.

(** ** After a successful fetch *)

Lemma string_of_raises (depth : nat) :
  forall n x, string_of depth n = Raise x ->
              x = OtherException "RecursionError".
Proof.
  induction depth as [|d IH]; intros n x; cbn [string_of].
  - intros E. injection E; auto.
  - destruct n as [s|s|name a [|c [|c2 cs]]]; try discriminate.
    destruct c as [s|s|nm a2 cs2]; try discriminate. apply IH.
Qed.

Lemma extract_title_raises (depth : nat) (sp : soup) (x : exn) :
  extract_title depth sp = Raise x -> x = OtherException "RecursionError".
Proof.
  unfold extract_title.
  destruct (truthy _); cbn [bind].
  - destruct (match find is_og_title sp with
              | Some (Tag _ a _) => attr_get (u "content") a
              | _ => None
              end) as [[|c t]|]; discriminate.
  - destruct (find is_title sp) as [t|]; cbn [bind]; [|discriminate].
    destruct (string_of depth t) as [[[|c r]|]|y] eqn:S; cbn [bind];
      try discriminate.
    intros E. injection E; intros <-. exact (string_of_raises _ _ S).
Qed.

Lemma parse_and_extract_raises (e : env) (t url : str) (x : exn) :
  parse_and_extract e t url = Raise x -> is_request_exception x = false.
Proof.
  unfold parse_and_extract, parse.
  destruct (BeautifulSoup e t) as [sp|name]; cbn [bind].
  - destruct (extract_title (string_depth e) sp) as [title|y] eqn:T;
      cbn [bind].
    + destruct (extract_body_ok sp) as [run ->]. cbn [bind].
      destruct (extract_source url) as [src|z] eqn:S; cbn [bind];
        [discriminate|].
      intros E. injection E; intros <-.
      rewrite (extract_source_raises _ S). reflexivity.
    + intros E. injection E; intros <-.
      rewrite (extract_title_raises _ _ T). reflexivity.
  - intros E. injection E; intros <-. reflexivity.
Qed.

Lemma parse_and_extract_ok (e : env) (t url : str) (res : triple) :
  parse_and_extract e t url = Ok res ->
  exists sp title run src,
    parse e t = Ok sp
    /\ extract_title (string_depth e) sp = Ok title
    /\ extract_body sp = Ok run
    /\ extract_source url = Ok src
    /\ res = (title, body_out run, src).
Proof.
  unfold parse_and_extract.
  destruct (parse e t) as [sp|] eqn:Q; [|discriminate]. cbn [bind].
  destruct (extract_title (string_depth e) sp) as [title|] eqn:T;
    [|discriminate]. cbn [bind].
  destruct (extract_body sp) as [run|] eqn:B; [|discriminate]. cbn [bind].
  destruct (extract_source url) as [src|] eqn:S; [|discriminate]. cbn [bind].
  intros E. injection E; intros <-.
  exists sp, title, run, src. split; [reflexivity|]. split; [exact T|].
  split; [exact B|]. split; reflexivity.
Qed.

Lemma fetched_result (e : env) (url : str) (r : response) :
  fetched e url r ->
  (exists t calls sp title run src,
      decode_response e r url = (Ok t, calls)
      /\ parse e t = Ok sp
      /\ extract_title (string_depth e) sp = Ok title
      /\ extract_body sp = Ok run
      /\ extract_source url = Ok src
      /\ extract_info_from_url e url
         = ((title, body_out run, src), calls))
  \/ (exists x calls,
         try_block e url = (Raise x, calls)
         /\ extract_info_from_url e url
            = (sentinel_triple, calls ++ [st_warning_unexpected x])).
Proof.
  intros F. destruct (try_block_fetched F) as [t [calls [D T]]].
  unfold extract_info_from_url. rewrite T.
  destruct (parse_and_extract e t url) as [res|x] eqn:P.
  - left.
    destruct (parse_and_extract_ok _ _ _ P)
      as [sp [title [run [src [Q [Ti [B [S ->]]]]]]]].
    exists t, calls, sp, title, run, src.
    split; [exact D|]. split; [exact Q|]. split; [exact Ti|].
    split; [exact B|]. split; [exact S|reflexivity].
  - right. exists x, calls. split; [reflexivity|].
    pose proof (parse_and_extract_raises _ _ _ P) as N.
    destruct x; [discriminate N | reflexivity ..].
Qed.

(** C6.  The function returns a triple on every input (it is a total
    function: no exception leaves it), and whenever, after a successful
    fetch, the [try] block fails - the parser or an extraction step raises -
    the triple returned is the sentinel triple, reported by the warning of
    line 159. *)
Theorem C6_unexpected_failure_degrades_to_sentinels
        (e : env) (url : str) (r : response) (x : exn) :
  fetched e url r ->
  fst (try_block e url) = Raise x ->
  extract_info_from_url e url
  = ((no_title, no_body, unknown_source),
     snd (try_block e url) ++ [st_warning_unexpected x]).
Proof.
  intros F H. destruct (try_block_fetched F) as [t [calls [_ T]]].
  unfold extract_info_from_url. rewrite T in *. cbn [fst snd] in *.
  rewrite H. pose proof (parse_and_extract_raises _ _ _ H) as N.
  destruct x; [discriminate N | reflexivity ..].
Qed.

Lemma C6_parser_failure_witness :
  extract_info_from_url
    (Samples.parser_failing Samples.blank_title_html) Samples.example_url
  = ((no_title, no_body, unknown_source),
     [st_warning_unexpected (OtherException "ParserRejectedMarkup")]).
Proof.
  apply (C6_unexpected_failure_degrades_to_sentinels
           (e := Samples.parser_failing Samples.blank_title_html)
           (url := Samples.example_url)
           (r := {| status_code := 200;
                    text := u Samples.blank_title_html;
                    content := bytes_of_string Samples.blank_title_html;
                    content_type := Samples.utf8_html |})).
  - split; reflexivity.
  - reflexivity.
Defined.

(** C8.  When the legacy-encoding override applies, the re-decoding of the
    raw bytes as [euc-kr] with [errors='replace'] completes for every byte
    sequence and whatever the code table is, and its result is the text
    handed to the parser.  That text accounts for every byte, in order:
    each sequence that the encoding maps gives its character, and each
    sequence that is invalid in the encoding gives one replacement
    character ([Codec.replaced]); so where a strict decode raises, the text
    holds a replacement character. *)
Theorem C8_legacy_redecode_completes (e : env) (r : response) (url : str) :
  euc_kr_override r url = true ->
  exists t,
    Codec.decode (euc_kr e) Codec.Replace (content r) = Ok t
    /\ decode_response e r url = (Ok t, [st_info_redecoded])
    /\ Codec.replaced (euc_kr e) (content r) t
    /\ (forall x,
           Codec.decode (euc_kr e) Codec.Strict (content r) = Raise x ->
           In Codec.replacement_character t).
Proof.
  intros H. destruct (decode_response_override e r url H) as [t [D R]].
  exists t. split; [exact D|]. split; [exact R|].
  split; [exact (decode_replace_replaced _ _ D)|].
  intros x S. exact (decode_strict_failure_replaced _ _ 0 S D).
Qed.

(** C10.  Decoding with [errors='replace'] raises no [UnicodeDecodeError],
    whatever the bytes and the code table: the handler of lines 62-64 is
    never entered, so its warning is never issued. *)
Theorem C10_decode_error_handler_unreachable (e : env) (url : str) :
  (forall bs, Codec.decode (euc_kr e) Codec.Replace bs
              <> Raise UnicodeDecodeError)
  /\ ~ In st_warning_euc_kr (snd (extract_info_from_url e url)).
Proof.
  split.
  - intros bs. destruct (decode_replace_total (euc_kr e) bs 0) as [s E].
    unfold Codec.decode. rewrite E. discriminate.
  - pose proof (try_block_calls e url) as N.
    unfold extract_info_from_url.
    destruct (try_block e url) as [[t|x] calls]; simpl in *; auto.
    destruct x; simpl; rewrite in_app_iff;
      intros [A|[A|[]]]; try discriminate; exact (N A).
Qed.

Lemma C8_legacy_redecode_witness :
  exists t,
    Codec.decode Samples.ascii_only Codec.Replace
                 (content Samples.legacy_response) = Ok t
    /\ decode_response (Samples.serving "" []) Samples.legacy_response
                       Samples.legacy_url
       = (Ok t, [st_info_redecoded])
    /\ Codec.replaced Samples.ascii_only (content Samples.legacy_response) t
    /\ (forall x,
           Codec.decode Samples.ascii_only Codec.Strict
                        (content Samples.legacy_response) = Raise x ->
           In Codec.replacement_character t).
Proof.
  apply (C8_legacy_redecode_completes
           (Samples.serving "" []) Samples.legacy_response Samples.legacy_url).
  reflexivity.
Defined.

(** The text of that response: the page, then one replacement character
    for each of the two bytes that nothing maps. *)
Example legacy_response_redecoded :
  Codec.decode Samples.ascii_only Codec.Replace
               (content Samples.legacy_response)
  = Ok (u "<html><body>news</body></html>"
        ++ [Codec.replacement_character; Codec.replacement_character]).
Proof. vm_compute. reflexivity. Qed.

(** ** What is returned after a successful fetch *)

Lemma fetched_body_and_source_nonempty
      (e : env) (url : str) (r : response) (t b s : str)
      (calls : list st_call) :
  fetched e url r ->
  extract_info_from_url e url = ((t, b, s), calls) ->
  b <> [] /\ s <> [].
Proof.
  intros F E. destruct (fetched_result F) as [L|[x [c [_ R]]]].
  - destruct L as [t0 [c [sp [ti [run [src [_ [_ [_ [B [S R]]]]]]]]]]].
    rewrite R in E. injection E; intros _ <- <- _.
    split; [exact (proj1 (extract_body_shape _ B))|].
    exact (extract_source_nonempty _ S).
  - rewrite R in E. injection E; intros _ <- <- _.
    split; [exact no_body_nonempty | exact unknown_source_nonempty].
Qed.

(** C1.  The code at two fetched pages: an [og:title] whose content is
    three spaces, and a [title] element that holds one space.  In both the
    title returned is the empty string, not the sentinel: line 70 tests the
    title before line 71 strips it.  (The body and the source are never
    empty: [fetched_body_and_source_nonempty].) *)
Theorem C1_blank_title_is_returned_empty :
  extract_info_from_url
    (Samples.serving Samples.blank_og_title_html Samples.blank_og_title_tree)
    Samples.example_url
  = (([], no_body, u "example"), [])
  /\ extract_info_from_url
       (Samples.serving Samples.blank_title_html Samples.blank_title_tree)
       Samples.example_url
     = (([], no_body, u "example"), []).
Proof. split; vm_compute; reflexivity. Qed.

(** C2.  The code at the two hosts that the specification names, and at
    the URL that the input form of the application shows as its example:
    [www.example.com] gives [example], but for a host with a subdomain
    other than [www] the pattern of line 140 finds no match, and the
    sentinel is returned. *)
Theorem C2_source_of_a_subdomain_host_is_unknown :
  extract_source Samples.www_example_com = Ok (u "example")
  /\ Re.search source_pattern Samples.news_example_co_kr = None
  /\ extract_source Samples.news_example_co_kr = Ok unknown_source
  /\ extract_source Samples.news_naver_com = Ok unknown_source.
Proof. repeat split; vm_compute; reflexivity. Qed.

(** C4.  The code at a page whose first catalog selector,
    [div.article_view], yields exactly 150 characters and whose [article]
    yields five: the scan does not stop at the first selector (line 122
    asks for more than 150), all 22 selectors are tried, the body becomes
    the five characters, and the paragraph fallback is entered. *)
Theorem C4_text_of_150_does_not_stop_the_scan :
  (exists st,
      scan_selectors [u "div.article_view"] Samples.exactly_150_tree [] []
      = Ok st
      /\ len (sc_body st) = 150 /\ sc_broke st = false)
  /\ (exists run,
         extract_body Samples.exactly_150_tree = Ok run
         /\ visited run = possible_body_selectors
         /\ broke run = false
         /\ fallback_executed run = true
         /\ body_out run = u "short").
Proof.
  split; eexists; (split; [vm_compute; reflexivity|]);
    repeat split; vm_compute; reflexivity.
Qed.

(** With one character more the scan stops at the first selector and the
    fallback is skipped. *)
Example text_of_151_stops_the_scan :
  exists run,
    extract_body Samples.over_150_tree = Ok run
    /\ visited run = [u "div.article_view"]
    /\ broke run = true
    /\ fallback_executed run = false
    /\ len (body_out run) = 151.
Proof.
  eexists; (split; [vm_compute; reflexivity|]);
    repeat split; vm_compute; reflexivity.
Qed.

(** C7.  The code at a URL of another site that carries [dt.co.kr] in its
    query string, answered with a UTF-8 content type: the declared charset
    is not [euc-kr], the host is [www.example.com], and yet line 57 holds,
    so the text handed to the parser is the [euc-kr] re-decoding and not
    the baseline text. *)
Theorem C7_override_applies_outside_the_publisher_domain :
  spec_charset_is_euc_kr Samples.utf8_response = false
  /\ spec_url_host Samples.referring_url = u "www.example.com"
  /\ spec_legacy_override Samples.utf8_response Samples.referring_url = false
  /\ euc_kr_override Samples.utf8_response Samples.referring_url = true
  /\ (forall e, exists t,
         Codec.decode (euc_kr e) Codec.Replace (content Samples.utf8_response)
         = Ok t
         /\ decode_response e Samples.utf8_response Samples.referring_url
            = (Ok t, [st_info_redecoded])).
Proof.
  split; [vm_compute; reflexivity|].
  split; [vm_compute; reflexivity|].
  split; [vm_compute; reflexivity|].
  split; [vm_compute; reflexivity|].
  intros e.
  apply (decode_response_override e Samples.utf8_response
                                  Samples.referring_url).
  vm_compute; reflexivity.
Qed.

(** Line 57 as it is written. *)
Lemma euc_kr_override_spec (r : response) (url : str) :
  euc_kr_override r url
  = spec_charset_is_euc_kr r || contains dt_co_kr url.
Proof. reflexivity. Qed.

(** C3.  The code at a fetched page whose [article] holds fourteen
    characters and that has no paragraph.  The body returned is that text:
    it is not the sentinel, it is shorter than 150 characters, and it is
    no paragraph-fallback text (there is none, and it is shorter than
    100 characters too).  Line 136 replaces only an empty body by the
    sentinel, so a selector text that line 126 counts as a failed
    extraction is returned all the same.  (That a body other than the
    sentinel is whitespace-normalized holds: [extract_body_shape].) *)
Lemma C3_short_selector_text_is_returned :
  fetched (Samples.serving Samples.short_article_html
                           Samples.short_article_tree)
          Samples.example_url
          (Samples.response_of Samples.short_article_html)
  /\ extract_info_from_url
       (Samples.serving Samples.short_article_html Samples.short_article_tree)
       Samples.example_url
     = ((no_title, u "Breaking news.", u "example"), [])
  /\ u "Breaking news." <> no_body
  /\ paragraph_text Samples.short_article_tree = None
  /\ ~ (150 <= len (u "Breaking news.")
        \/ 100 <= len (u "Breaking news.")).
Proof.
  split; [split; reflexivity|].
  split; [vm_compute; reflexivity|].
  split; [intros H; vm_compute in H; discriminate|].
  split; [vm_compute; reflexivity|].
  vm_compute. intros [H|H]; lia.
Qed.


(* ===================================================================== *)
(** * Part III.  Further properties of the code                           *)
(* ===================================================================== *)

(** ** The matcher finds only what the pattern describes *)

Lemma star_k_sound (A : Type) (p : char -> bool) (s : str)
      (k : str -> option A) (a : A) :
  Re.star_k p s k = Some a ->
  exists w s', s = w ++ s' /\ forallb p w = true /\ k s' = Some a.
Proof.
  induction s as [|c s IH]; cbn [Re.star_k].
  - intros H. exists [], []. auto.
  - destruct (p c) eqn:Hc.
    + destruct (Re.star_k p s k) as [b|] eqn:E.
      * intros H. injection H; intros ->.
        destruct (IH eq_refl) as [w [s' [-> [F K]]]].
        exists (c :: w), s'. cbn. rewrite Hc, F. auto.
      * intros H. exists [], (c :: s). auto.
    + intros H. exists [], (c :: s). auto.
Qed.

Lemma m_sound (A : Type) (r : Re.regex) :
  forall (g : option str) (s : str) (k : option str -> str -> option A)
         (a : A),
    Re.m r g s k = Some a ->
    exists g' s', matched r g s g' s' /\ k g' s' = Some a.
Proof.
  induction r as [|c|p|r1 IH1 r2 IH2|r1 IH1 r2 IH2|r1 IH1|p|p|r1 IH1];
    intros g s k a; cbn [Re.m matched].
  - intros H. exists g, s. auto.
  - destruct s as [|x s']; [discriminate|].
    destruct (N.eqb x c) eqn:E; [|discriminate].
    apply N.eqb_eq in E. subst x. intros H. exists g, s'. auto.
  - destruct s as [|x s']; [discriminate|].
    destruct (p x) eqn:E; [|discriminate].
    intros H. exists g, s'. split; [exists x; auto | exact H].
  - intros H. destruct (IH1 _ _ _ _ H) as [gm [sm [M1 H2]]].
    destruct (IH2 _ _ _ _ H2) as [g' [s' [M2 K]]].
    exists g', s'. split; [exists gm, sm; auto | exact K].
  - destruct (Re.m r1 g s k) as [b|] eqn:E.
    + intros H. injection H; intros ->.
      destruct (IH1 _ _ _ _ E) as [g' [s' [M K]]]. exists g', s'. auto.
    + intros H. destruct (IH2 _ _ _ _ H) as [g' [s' [M K]]].
      exists g', s'. auto.
  - destruct (Re.m r1 g s k) as [b|] eqn:E.
    + intros H. injection H; intros ->.
      destruct (IH1 _ _ _ _ E) as [g' [s' [M K]]]. exists g', s'. auto.
    + intros H. exists g, s. auto.
  - intros H. destruct (star_k_sound _ _ _ H) as [w [s' [-> [F K]]]].
    exists g, s'. split; [exists w; auto | exact K].
  - destruct s as [|x s0]; [discriminate|].
    destruct (p x) eqn:E; [|discriminate].
    intros H. destruct (star_k_sound _ _ _ H) as [w [s' [-> [F K]]]].
    exists g, s'. split; [exists x, w; auto | exact K].
  - intros H. destruct (IH1 _ _ _ _ H) as [gi [s' [M K]]].
    exists (Some (firstn (len s - len s') s)), s'.
    split; [exists gi; auto | exact K].
Qed.

Lemma matched_suffix (r : Re.regex) :
  forall g s g' s', matched r g s g' s' -> exists w, s = w ++ s'.
Proof.
  induction r as [|c|p|r1 IH1 r2 IH2|r1 IH1 r2 IH2|r1 IH1|p|p|r1 IH1];
    intros g s g' s'; cbn [matched].
  - intros [_ ->]. exists []. reflexivity.
  - intros [-> _]. exists [c]. reflexivity.
  - intros [x [-> _]]. exists [x]. reflexivity.
  - intros [gm [sm [M1 M2]]].
    destruct (IH1 _ _ _ _ M1) as [w1 ->].
    destruct (IH2 _ _ _ _ M2) as [w2 ->].
    exists (w1 ++ w2). rewrite app_assoc. reflexivity.
  - intros [M|M]; [exact (IH1 _ _ _ _ M) | exact (IH2 _ _ _ _ M)].
  - intros [M|[_ ->]]; [exact (IH1 _ _ _ _ M) | exists []; reflexivity].
  - intros [w [-> _]]. exists w. reflexivity.
  - intros [x [w [-> _]]]. exists (x :: w). reflexivity.
  - intros [gi [M _]]. exact (IH1 _ _ _ _ M).
Qed.

Lemma firstn_app_exact (w s' : str) :
  firstn (len (w ++ s') - len s') (w ++ s') = w.
Proof.
  unfold len. rewrite length_app, Nat.add_sub.
  rewrite firstn_app, Nat.sub_diag, firstn_all. cbn. apply app_nil_r.
Qed.

Lemma search_sound (r : Re.regex) (s : str) (g : option str) (rest : str) :
  Re.search r s = Some (g, rest) ->
  exists before s0, s = before ++ s0 /\ matched r None s0 g rest.
Proof.
  induction s as [|c s IH]; cbn [Re.search].
  - destruct (Re.match_at r []) as [x|] eqn:E; [|discriminate].
    intros H. injection H; intros ->.
    destruct (m_sound _ _ _ _ E) as [g' [s' [M K]]].
    injection K; intros <- <-. exists [], []. auto.
  - destruct (Re.match_at r (c :: s)) as [x|] eqn:E.
    + intros H. injection H; intros ->.
      destruct (m_sound _ _ _ _ E) as [g' [s' [M K]]].
      injection K; intros <- <-. exists [], (c :: s). auto.
    + intros H. destruct (IH H) as [before [s0 [-> M]]].
      exists (c :: before), s0. auto.
Qed.

Lemma matched_lit (w : str) (g : option str) (s : str)
      (g' : option str) (s' : str) :
  matched (Re.lit w) g s g' s' -> s = w ++ s' /\ g' = g.
Proof.
  revert g s. induction w as [|c w IH]; intros g s.
  - cbn. intros [-> ->]. auto.
  - destruct w as [|d w'].
    + cbn. intros [-> ->]. auto.
    + change (Re.lit (c :: d :: w')) with (Re.Cat (Re.Chr c) (Re.lit (d :: w'))).
      cbn [matched]. intros [gm [sm [[-> ->] M]]].
      destruct (IH _ _ M) as [-> ->]. auto.
Qed.

Lemma matched_alts_lit (ws : list str) (g : option str) (s : str)
      (g' : option str) (s' : str) :
  matched (Re.alts (map Re.lit ws)) g s g' s' ->
  exists w, In w ws /\ s = w ++ s' /\ g' = g.
Proof.
  induction ws as [|w ws IH].
  - cbn. intros [x [_ [E _]]]. discriminate.
  - destruct ws as [|w2 ws'].
    + cbn [map Re.alts]. intros M. destruct (matched_lit _ _ _ _ _ M).
      exists w. cbn. auto.
    + change (Re.alts (map Re.lit (w :: w2 :: ws')))
        with (Re.Alt (Re.lit w) (Re.alts (map Re.lit (w2 :: ws')))).
      cbn [matched]. intros [M|M].
      * destruct (matched_lit _ _ _ _ _ M). exists w. cbn. auto.
      * destruct (IH M) as [v [I E]]. exists v. split; [right; exact I|exact E].
Qed.

(** What group 1 of the pattern of line 140 holds when the pattern is
    found: a label, a dot, a known suffix, and what follows up to the
    next slash. *)
Lemma source_match_shape (url : str) (g : option str) (rest : str) :
  Re.search source_pattern url = Some (g, rest) ->
  exists x label sfx tail,
    g = Some ((x :: label) ++ chr "." :: sfx ++ tail)
    /\ label_char x = true
    /\ forallb label_char label = true
    /\ In sfx suffixes
    /\ forallb not_slash tail = true.
Proof.
  intros H. destruct (search_sound _ _ H) as [before [s0 [_ M]]].
  unfold source_pattern in M. cbn [Re.cats matched] in M.
  destruct M as [g1 [s1 [_ [g2 [s2 [_ [g3 [s3 [_ [g4 [s4 [_ M]]]]]]]]]]]].
  destruct M as [g5 [s5 [[gi [G E]] O]]].
  assert (g = g5) by (destruct O as [[_ ->]|[-> _]]; reflexivity).
  subst g g5.
  destruct G as [ga [sa [[x [w [-> [Px [Pw _]]]]] [gb [sb [[-> _] G]]]]]].
  destruct G as [gc [sc [A [tail [-> [Pt _]]]]]].
  destruct (matched_alts_lit _ _ _ _ _ A) as [sfx [I [-> _]]].
  exists x, w, sfx, tail. repeat split; auto.
  f_equal.
  replace (x :: w ++ chr "." :: (sfx ++ tail ++ s5))
    with (((x :: w) ++ chr "." :: sfx ++ tail) ++ s5).
  - apply firstn_app_exact.
  - cbn. f_equal. rewrite <- !app_assoc. cbn. rewrite <- app_assoc.
    reflexivity.
Qed.

(** ** Source: what [extract_source] can return *)

Lemma split_nonempty (sep : char) (s : str) : split sep s <> [].
Proof.
  induction s as [|c t IH]; cbn; [discriminate|].
  destruct (N.eqb c sep); [discriminate|].
  destruct (split sep t); [contradiction | discriminate].
Qed.

Lemma split_two (sep : char) (s : str) :
  In sep s -> 2 <= List.length (split sep s).
Proof.
  induction s as [|c t IH]; [intros []|].
  intros I. cbn [split]. destruct (N.eqb c sep) eqn:E.
  - pose proof (split_nonempty sep t).
    destruct (split sep t); [contradiction | cbn; lia].
  - destruct I as [->|I]; [rewrite N.eqb_refl in E; discriminate|].
    specialize (IH I). destruct (split sep t); cbn in *; lia.
Qed.

Lemma split_pieces (sep : char) (s : str) :
  forall piece, In piece (split sep s) ->
                ~ In sep piece /\ (forall c, In c piece -> In c s).
Proof.
  induction s as [|c t IH]; cbn [split].
  - intros piece [<-|[]]. split; [intros [] | intros c []].
  - destruct (N.eqb c sep) eqn:E.
    + intros piece [<-|I]; [split; [intros [] | intros x []]|].
      destruct (IH _ I) as [A B]. split; [exact A|].
      intros x Hx. right. exact (B x Hx).
    + apply N.eqb_neq in E.
      pose proof (split_nonempty sep t) as NE.
      destruct (split sep t) as [|w ws]; [contradiction|].
      intros piece [<-|I].
      * destruct (IH w (or_introl eq_refl)) as [A B]. split.
        -- intros [->|Hs]; [apply E; reflexivity | exact (A Hs)].
        -- intros x [<-|Hx]; [left; reflexivity | right; exact (B x Hx)].
      * destruct (IH piece (or_intror I)) as [A B]. split; [exact A|].
        intros x Hx. right. exact (B x Hx).
Qed.

Lemma index_minus_2_ok (l : list str) :
  2 <= List.length l ->
  exists x, index_minus_2 l = Ok x /\ In x l.
Proof.
  intros L. unfold index_minus_2.
  assert (R : List.length (rev l) = List.length l) by apply length_rev.
  destruct (rev l) as [|a [|b r]] eqn:E; cbn in R; try lia.
  exists b. split; [reflexivity|].
  apply in_rev. rewrite E. right; left; reflexivity.
Qed.

Lemma index_0_ok (l : list str) (x : str) :
  index_0 l = Ok x -> In x l.
Proof.
  destruct l as [|a l]; cbn; [discriminate|].
  intros E. injection E; intros <-. left; reflexivity.
Qed.

Lemma index_minus_2_in (l : list str) (x : str) :
  index_minus_2 l = Ok x -> In x l.
Proof.
  unfold index_minus_2. destruct (rev l) as [|a [|b r]] eqn:E;
    try discriminate.
  intros H. injection H; intros <-.
  apply in_rev. rewrite E. right; left; reflexivity.
Qed.

Lemma suffixes_without_slash :
  forallb (forallb not_slash) suffixes = true.
Proof. vm_compute. reflexivity. Qed.

Lemma label_char_not_slash (c : char) :
  label_char c = true -> not_slash c = true.
Proof.
  unfold not_slash. destruct (N.eqb c (chr "/")) eqn:E; [|reflexivity].
  apply N.eqb_eq in E. subst c. vm_compute. discriminate.
Qed.

(** Group 1 holds a dot and no slash. *)
Lemma source_group_chars (url : str) (g : str) (rest : str) :
  Re.search source_pattern url = Some (Some g, rest) ->
  In (chr ".") g /\ ~ In (chr "/") g.
Proof.
  intros H.
  destruct (source_match_shape _ H) as [x [w [sfx [tail [E [Px [Pw [I Pt]]]]]]]].
  injection E; intros ->. split.
  - right. apply in_or_app. right. left. reflexivity.
  - assert (S : forallb not_slash sfx = true).
    { pose proof suffixes_without_slash as F.
      rewrite forallb_forall in F. exact (F _ I). }
    assert (W : forallb not_slash w = true).
    { apply forallb_forall. intros y Hy.
      rewrite forallb_forall in Pw. exact (label_char_not_slash _ (Pw y Hy)). }
    assert (A : forallb not_slash (x :: w ++ chr "." :: sfx ++ tail) = true).
    { cbn [forallb]. rewrite forallb_app. cbn [forallb].
      rewrite forallb_app, S, Pt, W, (label_char_not_slash _ Px).
      reflexivity. }
    intros Hs. rewrite forallb_forall in A. specialize (A _ Hs).
    vm_compute in A. discriminate.
Qed.

Lemma domain_label_ok (url : str) : exists s, domain_label url = Ok s.
Proof.
  unfold domain_label.
  destruct (Re.search source_pattern url) as [[[[|c d]|] rest]|] eqn:S;
    try (eexists; reflexivity).
  destruct (source_group_chars _ S) as [D _].
  destruct (contains (u ".co.kr") (c :: d)).
  - pose proof (split_nonempty (chr ".") (c :: d)) as NE.
    destruct (split (chr ".") (c :: d)); [contradiction|].
    eexists; reflexivity.
  - destruct (index_minus_2_ok _ (split_two _ _ D)) as [x [E _]].
    exists x. exact E.
Qed.

(** X1.  The indexing of lines 144 and 146 never raises: whatever the URL,
    [extract_source] returns a string.  (Group 1 of the pattern always
    holds a dot, so the split has two parts at least.) *)
Theorem X1_extract_source_never_raises (url : str) :
  exists s, extract_source url = Ok s.
Proof.
  unfold extract_source. destruct (domain_label_ok url) as [s0 ->].
  cbn [bind]. destruct (strip (remove_char (chr "-") s0));
    eexists; reflexivity.
Qed.

Lemma strip_in (s : str) (c : char) : In c (strip s) -> In c s.
Proof.
  unfold strip. intros H.
  destruct (rstrip_prefix (lstrip s)) as [w [E _]].
  destruct (drop_while_split isspace s) as [v [F _]].
  rewrite F. apply in_or_app. right. fold (lstrip s).
  rewrite E. apply in_or_app. left. exact H.
Qed.

Lemma domain_label_chars (url s : str) :
  domain_label url = Ok s ->
  ~ In (chr ".") s /\ ~ In (chr "/") s.
Proof.
  unfold domain_label.
  destruct (Re.search source_pattern url) as [[[[|c d]|] rest]|] eqn:S;
    try (intros E; injection E; intros <-; split; intros H;
         vm_compute in H; intuition discriminate).
  destruct (source_group_chars _ S) as [_ NS].
  assert (P : forall piece, In piece (split (chr ".") (c :: d)) ->
                            ~ In (chr ".") piece /\ ~ In (chr "/") piece).
  { intros piece I. destruct (split_pieces _ _ _ I) as [A B].
    split; [exact A | intros H; exact (NS (B _ H))]. }
  destruct (contains (u ".co.kr") (c :: d)); intros E.
  - exact (P _ (index_0_ok _ E)).
  - exact (P _ (index_minus_2_in _ E)).
Qed.

(** X2.  The source returned never holds a hyphen, a dot or a slash. *)
Theorem X2_source_has_no_hyphen_dot_or_slash (url s : str) :
  extract_source url = Ok s ->
  lacks (chr "-") s /\ lacks (chr ".") s /\ lacks (chr "/") s.
Proof.
  unfold extract_source, lacks.
  destruct (domain_label url) as [s0|] eqn:D; cbn [bind]; [|discriminate].
  destruct (domain_label_chars _ D) as [ND NS].
  destruct (strip (remove_char (chr "-") s0)) as [|c r] eqn:E;
    intros H; injection H; intros <-.
  - repeat split; intros I; vm_compute in I; intuition discriminate.
  - assert (K : forall x, In x (c :: r) -> In x s0 /\ x <> chr "-").
    { intros x Hx. rewrite <- E in Hx. apply strip_in in Hx.
      unfold remove_char in Hx. apply filter_In in Hx.
      destruct Hx as [I F]. split; [exact I|].
      intros ->. rewrite N.eqb_refl in F. discriminate. }
    repeat split; intros I; destruct (K _ I) as [I0 N0]; auto.
Qed.

Lemma X2_source_witness :
  lacks (chr "-") (u "mysite") /\ lacks (chr ".") (u "mysite")
  /\ lacks (chr "/") (u "mysite").
Proof.
  apply (X2_source_has_no_hyphen_dot_or_slash (u "https://my-site.kr")).
  vm_compute. reflexivity.
Defined.

Lemma contains_app (needle a b : str) :
  contains needle (a ++ needle ++ b) = true.
Proof.
  assert (P : forall n s, strip_prefix n (n ++ s) = Some s).
  { induction n as [|x n IH]; intros s; cbn; [reflexivity|].
    rewrite N.eqb_refl. apply IH. }
  induction a as [|c a IH].
  - cbn [app]. destruct (needle ++ b) eqn:E;
      cbn [contains]; unfold startswith; rewrite <- E, P; reflexivity.
  - cbn [app contains]. rewrite IH. apply orb_true_r.
Qed.


(** ** Source: the pattern on a plain host *)

Lemma strip_prefix_app (w s : str) : strip_prefix w (w ++ s) = Some s.
Proof.
  induction w as [|x w IH]; cbn; [reflexivity|].
  rewrite N.eqb_refl. exact IH.
Qed.

Lemma strip_prefix_some (w s s' : str) :
  strip_prefix w s = Some s' -> s = w ++ s'.
Proof.
  revert s. induction w as [|x w IH]; intros s; cbn.
  - intros E. injection E; auto.
  - destruct s as [|y s0]; [discriminate|].
    destruct (N.eqb x y) eqn:E; [|discriminate].
    apply N.eqb_eq in E. subst y. intros H. rewrite (IH _ H). reflexivity.
Qed.

Lemma m_lit_spec (A : Type) (w : str) (g : option str) (s : str)
      (k : option str -> str -> option A) :
  Re.m (Re.lit w) g s k =
  match strip_prefix w s with
  | Some s' => k g s'
  | None => None
  end.
Proof.
  revert s. induction w as [|c w IH]; intros s; [reflexivity|].
  destruct w as [|d w'].
  - cbn. destruct s as [|x s0]; [reflexivity|].
    rewrite (N.eqb_sym c x). destruct (N.eqb x c); reflexivity.
  - change (Re.lit (c :: d :: w')) with (Re.Cat (Re.Chr c) (Re.lit (d :: w'))).
    cbn [Re.m strip_prefix]. destruct s as [|x s0]; [reflexivity|].
    rewrite (N.eqb_sym c x). destruct (N.eqb x c); [apply IH | reflexivity].
Qed.

Lemma star_k_total' (A : Type) (p : char -> bool) (k : str -> option A)
      (f : str -> A) (s : str) :
  (forall s', k s' = Some (f s')) ->
  Re.star_k p s k = Some (f (drop_while p s)).
Proof.
  intros K. induction s as [|c s IH]; cbn; [apply K|].
  destruct (p c); [rewrite IH; reflexivity | apply K].
Qed.

Lemma star_k_run (A : Type) (p : char -> bool) (k : str -> option A)
      (w s : str) (a : A) :
  forallb p w = true ->
  match s with c :: _ => p c = false | [] => True end ->
  k s = Some a ->
  Re.star_k p (w ++ s) k = Some a.
Proof.
  intros W H K. induction w as [|c w IH]; cbn [app].
  - destruct s as [|c s0]; cbn; [exact K|]. rewrite H. exact K.
  - cbn in W. apply andb_true_iff in W. destruct W as [Pc W].
    cbn. rewrite Pc, (IH W). reflexivity.
Qed.

Lemma drop_while_app_all (p : char -> bool) (w s : str) :
  forallb p w = true -> drop_while p (w ++ s) = drop_while p s.
Proof.
  induction w as [|c w IH]; cbn; [reflexivity|].
  intros H. apply andb_true_iff in H. destruct H as [-> W]. exact (IH W).
Qed.

Lemma m_alts_lit (A : Type) (ws : list str) (g : option str) (s : str)
      (k : option str -> str -> option A) (f : str -> A) :
  (forall s', k g s' = Some (f (drop_while not_slash s'))) ->
  forallb (forallb not_slash) ws = true ->
  (exists w, In w ws /\ startswith w s = true) ->
  Re.m (Re.alts (map Re.lit ws)) g s k
  = Some (f (drop_while not_slash s)).
Proof.
  intros K. induction ws as [|w ws IH]; intros F [v [I P]]; [destruct I|].
  cbn [forallb] in F. apply andb_true_iff in F. destruct F as [Fw F].
  assert (hit : forall s', strip_prefix w s = Some s' ->
                           k g s' = Some (f (drop_while not_slash s))).
  { intros s' E. rewrite (strip_prefix_some _ _ E).
    rewrite (drop_while_app_all _ _ _ Fw). apply K. }
  destruct ws as [|w2 ws'].
  - cbn [map Re.alts]. rewrite m_lit_spec.
    destruct I as [<-|[]]. unfold startswith in P.
    destruct (strip_prefix w s) as [s'|] eqn:E; [|discriminate].
    exact (hit _ eq_refl).
  - change (Re.alts (map Re.lit (w :: w2 :: ws')))
      with (Re.Alt (Re.lit w) (Re.alts (map Re.lit (w2 :: ws')))).
    cbn [Re.m]. rewrite m_lit_spec.
    destruct (strip_prefix w s) as [s'|] eqn:E.
    + rewrite (hit _ eq_refl). reflexivity.
    + apply (IH F). destruct I as [<-|I].
      * unfold startswith in P. rewrite E in P. discriminate.
      * exists v. auto.
Qed.

Lemma startswith_app (w s : str) : startswith w (w ++ s) = true.
Proof. unfold startswith. rewrite strip_prefix_app. reflexivity. Qed.

(** Group 1 on [label.suffix] followed by the end or by a slash. *)
Lemma match_host (x : char) (w sfx : str) (path : option str) :
  label_char x = true ->
  forallb label_char w = true ->
  In sfx suffixes ->
  Re.m (Re.Group
          (Re.cats [ Re.Plus label_char; Re.Chr (chr ".");
                     Re.alts (map Re.lit suffixes);
                     Re.Star not_slash ]))
       None
       ((x :: w) ++ chr "." :: sfx
        ++ match path with Some p => chr "/" :: p | None => [] end)
       (fun g' s' =>
          Re.m (Re.Opt (Re.Chr (chr "/"))) g' s'
               (fun g s0 => Some (g, s0)))
  = Some (Some ((x :: w) ++ chr "." :: sfx),
          match path with Some p => p | None => [] end).
Proof.
  intros Px Pw I.
  set (after := match path with Some p => chr "/" :: p | None => [] end).
  set (whole := (x :: w) ++ chr "." :: sfx ++ after).
  cbn [Re.cats Re.m]. unfold whole at 1. cbn [app]. rewrite Px.
  assert (S : forallb not_slash sfx = true).
  { pose proof suffixes_without_slash as F.
    rewrite forallb_forall in F. exact (F _ I). }
  assert (D : drop_while not_slash (sfx ++ after) = after).
  { rewrite (drop_while_app_all _ _ _ S). apply drop_while_fix.
    unfold after. destruct path; [reflexivity | exact Logic.I]. }
  apply star_k_run; [exact Pw | reflexivity |].
  cbn [Re.m]. rewrite N.eqb_refl.
  rewrite (m_alts_lit suffixes None (sfx ++ after) _
             (fun s' =>
                (Some (firstn (len whole - len s') whole),
                 match s' with
                 | c :: r => if N.eqb c (chr "/") then r else s'
                 | [] => []
                 end))).
  - rewrite D. f_equal. f_equal.
    + f_equal. unfold whole.
      replace ((x :: w) ++ chr "." :: sfx ++ after)
        with (((x :: w) ++ chr "." :: sfx) ++ after)
        by (rewrite <- app_assoc; reflexivity).
      apply firstn_app_exact.
    + unfold after. destruct path; reflexivity.
  - intros s'. cbn [Re.m].
    rewrite (star_k_total' not_slash _
               (fun s2 =>
                  (Some (firstn (len whole - len s2) whole),
                   match s2 with
                   | c :: r => if N.eqb c (chr "/") then r else s2
                   | [] => []
                   end))); [reflexivity|].
    intros s2. destruct s2 as [|c r]; [reflexivity|].
    destruct (N.eqb c (chr "/")); reflexivity.
  - exact suffixes_without_slash.
  - exists sfx. split; [exact I | apply startswith_app].
Qed.

Lemma search_hit (r : Re.regex) (s : str) (x : option str * str) :
  Re.match_at r s = Some x -> Re.search r s = Some x.
Proof. intros H. destruct s; cbn [Re.search]; rewrite H; reflexivity. Qed.

Lemma label_char_not_dot (c : char) :
  label_char c = true -> c <> chr ".".
Proof. intros H ->. vm_compute in H. discriminate. Qed.

Lemma label_char_not_space (c : char) :
  label_char c = true -> isspace c = false.
Proof.
  intros H. apply not_true_is_false. intros S.
  unfold label_char, isspace in *.
  repeat (rewrite ?orb_true_iff, ?andb_true_iff in H).
  repeat (rewrite ?orb_true_iff, ?andb_true_iff in S).
  rewrite ?N.leb_le, ?N.eqb_eq in H. rewrite ?N.leb_le, ?N.eqb_eq in S.
  lia.
Qed.

Lemma not_www_prefix (x : char) (w r : str) :
  label_char x = true ->
  forallb label_char w = true ->
  x :: w <> u "www" ->
  strip_prefix (u "www.") ((x :: w) ++ chr "." :: r) = None.
Proof.
  intros Px Pw N.
  change (u "www.") with [119; 119; 119; 46]%N.
  change (u "www") with [119; 119; 119]%N in N.
  change (chr ".") with 46%N.
  assert (dot : label_char 46%N = false) by reflexivity.
  cbn [app strip_prefix].
  destruct (N.eqb 119 x) eqn:E1; [|reflexivity].
  apply N.eqb_eq in E1. subst x.
  destruct w as [|b w]; [reflexivity|].
  cbn [app strip_prefix]. destruct (N.eqb 119 b) eqn:E2; [|reflexivity].
  apply N.eqb_eq in E2. subst b.
  destruct w as [|c w]; [reflexivity|].
  cbn [app strip_prefix]. destruct (N.eqb 119 c) eqn:E3; [|reflexivity].
  apply N.eqb_eq in E3. subst c.
  destruct w as [|d w]; [exfalso; apply N; reflexivity|].
  cbn [app strip_prefix]. destruct (N.eqb 46 d) eqn:E4; [|reflexivity].
  apply N.eqb_eq in E4. subst d.
  cbn [forallb] in Pw. rewrite dot in Pw.
  rewrite !andb_false_r in Pw. cbn in Pw. discriminate.
Qed.

Lemma first_choice (A : Type) (o d : option A) (a : A) :
  o = Some a ->
  match o with Some b => Some b | None => d end = Some a.
Proof. intros ->. reflexivity. Qed.

(** The URLs of the form [http(s)://(www.)label.suffix(/path)]. *)
Lemma search_plain_host (secure www : bool) (x : char) (w sfx : str)
      (path : option str) :
  label_char x = true ->
  forallb label_char w = true ->
  In sfx suffixes ->
  (www = false -> x :: w <> u "www") ->
  Re.search source_pattern
    (u "http" ++ (if secure then [chr "s"] else [])
     ++ u "://" ++ (if www then u "www." else [])
     ++ (x :: w) ++ chr "." :: sfx
     ++ match path with Some p => chr "/" :: p | None => [] end)
  = Some (Some ((x :: w) ++ chr "." :: sfx),
          match path with Some p => p | None => [] end).
Proof.
  intros Px Pw I N. apply search_hit.
  pose proof (@match_host x w sfx path Px Pw I) as H.
  set (after := match path with Some p => chr "/" :: p | None => [] end) in *.
  set (host := (x :: w) ++ chr "." :: sfx ++ after) in *.
  unfold Re.match_at, source_pattern.
  set (G := Re.Group _) in *.
  cbn [Re.cats Re.m].
  rewrite m_lit_spec, strip_prefix_app.
  assert (W : Re.m (Re.Opt (Re.lit (u "www."))) None
                   ((if www then u "www." else []) ++ host)
                   (fun g' s' =>
                      Re.m G g' s'
                           (fun g'0 s'0 =>
                              Re.m (Re.Opt (Re.Chr (chr "/"))) g'0 s'0
                                   (fun g s0 => Some (g, s0))))
              = Some (Some ((x :: w) ++ chr "." :: sfx),
                      match path with Some p => p | None => [] end)).
  { cbn [Re.m]. rewrite m_lit_spec. destruct www.
    - rewrite strip_prefix_app. cbv beta iota. apply first_choice. exact H.
    - cbn [app]. unfold host at 1.
      rewrite (@not_www_prefix x w _ Px Pw (N eq_refl)). exact H. }
  assert (S : Re.m (Re.lit (u "://")) None
                   (u "://" ++ (if www then u "www." else []) ++ host)
                   (fun g' s' =>
                      Re.m (Re.Opt (Re.lit (u "www."))) g' s'
                        (fun g'0 s'0 =>
                           Re.m G g'0 s'0
                             (fun g'1 s'1 =>
                                Re.m (Re.Opt (Re.Chr (chr "/"))) g'1 s'1
                                     (fun g s0 => Some (g, s0)))))
              = Some (Some ((x :: w) ++ chr "." :: sfx),
                      match path with Some p => p | None => [] end)).
  { rewrite m_lit_spec, strip_prefix_app. cbv beta iota. exact W. }
  destruct secure.
  - cbn [app Re.m]. rewrite N.eqb_refl. cbv beta iota. apply first_choice.
    exact S.
  - cbn [app]. change (u "://") with [58; 47; 47]%N at 1.
    cbn [app Re.m]. change (N.eqb 58 (chr "s")) with false. cbv iota.
    change [58; 47; 47]%N with (u "://"). exact S.
Qed.

Lemma split_app_sep (sep : char) (a b : str) :
  ~ In sep a -> split sep (a ++ sep :: b) = a :: split sep b.
Proof.
  induction a as [|c a IH]; intros N.
  - cbn. rewrite N.eqb_refl. reflexivity.
  - cbn [app split]. destruct (N.eqb c sep) eqn:E.
    + apply N.eqb_eq in E. exfalso. apply N. left. exact E.
    + rewrite IH; [reflexivity|]. intros H. apply N. right. exact H.
Qed.

Lemma suffix_cases (sfx : str) :
  In sfx suffixes ->
  sfx = u "co.kr" \/ split (chr ".") sfx = [sfx].
Proof.
  intros I. vm_compute in I.
  repeat (destruct I as [<-|I]; [first [left; vm_compute; reflexivity
                                       | right; vm_compute; reflexivity]|]).
  destruct I.
Qed.

Lemma strip_without_whitespace (s : str) :
  forallb (fun c => negb (isspace c)) s = true -> strip s = s.
Proof.
  intros F. rewrite forallb_forall in F.
  assert (L : lstrip s = s).
  { apply drop_while_fix. destruct s as [|c t]; [exact I|].
    apply negb_true_iff, F. left. reflexivity. }
  unfold strip. rewrite L. unfold rstrip.
  rewrite drop_while_fix; [apply rev_involutive|].
  destruct (rev s) as [|c t] eqn:E; [exact I|].
  apply negb_true_iff, F, in_rev. rewrite E. left. reflexivity.
Qed.

(** X4.  For a URL of the form [http(s)://(www.)label.suffix], followed by
    nothing or by a slash and anything, where the label is made of letters,
    digits and hyphens and the suffix is one of the seventeen of line 140,
    the source is the label without its hyphens (the sentinel if nothing is
    left).  Without [www.] the label must not be [www] itself. *)
Theorem X4_source_of_a_plain_host
        (secure www : bool) (label sfx : str) (path : option str) :
  label <> [] ->
  forallb label_char label = true ->
  In sfx suffixes ->
  (www = false -> label <> u "www") ->
  extract_source
    (u "http" ++ (if secure then [chr "s"] else [])
     ++ u "://" ++ (if www then u "www." else [])
     ++ label ++ chr "." :: sfx
     ++ match path with Some p => chr "/" :: p | None => [] end)
  = Ok match remove_char (chr "-") label with
       | [] => unknown_source
       | l => l
       end.
Proof.
  intros NE PL I N. destruct label as [|x w]; [contradiction|].
  cbn [forallb] in PL. apply andb_true_iff in PL. destruct PL as [Px Pw].
  unfold extract_source, domain_label.
  rewrite (@search_plain_host secure www x w sfx path Px Pw I N).
  assert (ND : ~ In (chr ".") (x :: w)).
  { intros [E|H].
    - exact (@label_char_not_dot x Px E).
    - rewrite forallb_forall in Pw.
      exact (@label_char_not_dot (chr ".") (Pw _ H) eq_refl). }
  assert (L : (if contains (u ".co.kr") ((x :: w) ++ chr "." :: sfx)
               then index_0 (split (chr ".") ((x :: w) ++ chr "." :: sfx))
               else index_minus_2
                      (split (chr ".") ((x :: w) ++ chr "." :: sfx)))
              = Ok (x :: w)).
  { rewrite (@split_app_sep (chr ".") (x :: w) sfx ND).
    destruct (contains (u ".co.kr") ((x :: w) ++ chr "." :: sfx)) eqn:C;
      [reflexivity|].
    destruct (@suffix_cases sfx I) as [->|S]; [|rewrite S; reflexivity].
    pose proof (contains_app (u ".co.kr") (x :: w) []) as K.
    change (u ".co.kr" ++ []) with (chr "." :: u "co.kr") in K.
    rewrite C in K. discriminate. }
  cbn [app] in L |- *. rewrite L. cbn [bind].
  rewrite strip_without_whitespace.
  - destruct (remove_char (chr "-") (x :: w)); reflexivity.
  - apply forallb_forall. intros c Hc. unfold remove_char in Hc.
    apply filter_In in Hc. destruct Hc as [Hc _].
    apply negb_true_iff, label_char_not_space.
    destruct Hc as [<-|Hc]; [exact Px|].
    rewrite forallb_forall in Pw. exact (Pw _ Hc).
Qed.

Lemma X4_plain_host_witness :
  extract_source
    (u "http" ++ [chr "s"] ++ u "://" ++ u "www."
     ++ u "daily-news" ++ chr "." :: u "co.kr"
     ++ chr "/" :: u "article/12?id=3")
  = Ok (u "dailynews").
Proof.
  apply (@X4_source_of_a_plain_host true true (u "daily-news") (u "co.kr")
           (Some (u "article/12?id=3"))).
  - discriminate.
  - vm_compute. reflexivity.
  - vm_compute. left. reflexivity.
  - discriminate.
Defined.

(** ** Whitespace normalization keeps the text *)

Lemma filter_drop_while_space (t : str) :
  filter (fun c => negb (isspace c)) (drop_while isspace t)
  = filter (fun c => negb (isspace c)) t.
Proof.
  induction t as [|c t IH]; [reflexivity|].
  cbn [drop_while]. destruct (isspace c) eqn:E; [|reflexivity].
  cbn [filter]. rewrite E. exact IH.
Qed.

Lemma filter_sub_whitespace (s : str) :
  filter (fun c => negb (isspace c)) (Re.sub whitespace_run [space] s)
  = filter (fun c => negb (isspace c)) s.
Proof.
  remember (len s) as n eqn:E.
  revert s E. induction n as [n IH] using lt_wf_ind. intros s E.
  destruct s as [|c t]; [reflexivity|].
  rewrite sub_whitespace_cons. destruct (isspace c) eqn:Hc.
  - cbn [filter]. rewrite isspace_space, Hc. cbn [negb].
    pose proof (drop_while_length isspace t) as L.
    rewrite (IH (len (drop_while isspace t))); unfold len in *;
      [apply filter_drop_while_space | subst n; cbn; lia | reflexivity].
  - cbn [filter]. rewrite Hc. cbn [negb]. f_equal.
    apply (IH (len t)); unfold len in *; [subst n; cbn; lia | reflexivity].
Qed.

Lemma filter_strip (s : str) :
  filter (fun c => negb (isspace c)) (strip s)
  = filter (fun c => negb (isspace c)) s.
Proof.
  unfold strip, rstrip, lstrip.
  rewrite filter_rev, filter_drop_while_space, <- filter_rev.
  rewrite rev_involutive. apply filter_drop_while_space.
Qed.

Lemma length_sub_whitespace (s : str) :
  len (Re.sub whitespace_run [space] s) <= len s.
Proof.
  remember (len s) as n eqn:E.
  revert s E. induction n as [n IH] using lt_wf_ind. intros s E.
  destruct s as [|c t]; [cbn; lia|].
  rewrite sub_whitespace_cons. destruct (isspace c).
  - pose proof (drop_while_length isspace t) as L.
    pose proof (IH (len (drop_while isspace t))) as H.
    unfold len in *. cbn [List.length].
    specialize (H ltac:(subst n; cbn; lia) _ eq_refl). subst n. cbn. lia.
  - pose proof (IH (len t)) as H. unfold len in *. cbn [List.length].
    specialize (H ltac:(subst n; cbn; lia) _ eq_refl). subst n. cbn. lia.
Qed.

Lemma length_strip (s : str) : len (strip s) <= len s.
Proof.
  unfold strip, rstrip, lstrip, len. rewrite length_rev.
  pose proof (drop_while_length isspace (rev (drop_while isspace s))) as A.
  pose proof (drop_while_length isspace s) as B.
  unfold len in *. rewrite length_rev in A. lia.
Qed.

Lemma filter_normalize (s : str) :
  filter (fun c => negb (isspace c)) (normalize s)
  = filter (fun c => negb (isspace c)) s.
Proof.
  unfold normalize. rewrite filter_strip. apply filter_sub_whitespace.
Qed.

(** X5.  Normalization touches whitespace only: the characters that are
    not whitespace are the same, in the same order, before and after, and
    the result is never longer than the input. *)
Theorem X5_normalize_keeps_the_text (s : str) :
  filter (fun c => negb (isspace c)) (normalize s)
  = filter (fun c => negb (isspace c)) s
  /\ len (normalize s) <= len s.
Proof.
  split; [apply filter_normalize|]. unfold normalize.
  - pose proof (length_strip (Re.sub whitespace_run [space] s)).
    pose proof (length_sub_whitespace s). lia.
Qed.

Lemma strip_head (s : str) :
  match strip s with c :: _ => isspace c = false | [] => True end.
Proof.
  unfold strip. rewrite <- (lstrip_rstrip_lstrip s). unfold lstrip at 1.
  apply drop_while_head.
Qed.

Lemma filter_nonspace_nil (s : str) :
  filter (fun c => negb (isspace c)) s = [] <-> forallb isspace s = true.
Proof.
  induction s as [|c t IH]; cbn; [tauto|].
  destruct (isspace c); cbn; [exact IH|].
  split; discriminate.
Qed.

(** X6.  The normalized text is empty exactly when the text holds nothing
    but whitespace. *)
Theorem X6_normalize_empty_iff_blank (s : str) :
  normalize s = [] <-> forallb isspace s = true.
Proof.
  pose proof (filter_normalize s) as F. split.
  - intros E. rewrite E in F. apply filter_nonspace_nil.
    symmetry. exact F.
  - intros B. apply filter_nonspace_nil in B. rewrite B in F.
    pose proof (strip_head (Re.sub whitespace_run [space] s)) as H.
    fold (normalize s) in H.
    destruct (normalize s) as [|c r]; [reflexivity|].
    cbn in F. rewrite H in F. discriminate.
Qed.

(** ** The three ways in which the function returns *)

Lemma try_block_ok (e : env) (url : str) (res : triple)
      (calls : list st_call) :
  try_block e url = (Ok res, calls) ->
  exists r t,
    fetched e url r
    /\ decode_response e r url = (Ok t, calls)
    /\ parse_and_extract e t url = Ok res.
Proof.
  unfold try_block, fetched.
  destruct (requests_get e url) as [r|x] eqn:G; [|discriminate].
  destruct (raise_for_status r) as [[]|x] eqn:S; [|discriminate].
  destruct (decode_response e r url) as [[t|x] c] eqn:D; [|discriminate].
  intros E. injection E; intros <- P.
  exists r, t. split; [split; [reflexivity | exact S]|].
  split; [first [exact D | reflexivity] | exact P].
Qed.

Lemma returns (e : env) (url : str) :
  (exists r t sp title run src,
      fetched e url r
      /\ decode_response e r url = (Ok t, snd (try_block e url))
      /\ parse e t = Ok sp
      /\ extract_title (string_depth e) sp = Ok title
      /\ extract_body sp = Ok run
      /\ extract_source url = Ok src
      /\ extract_info_from_url e url
         = ((title, body_out run, src), snd (try_block e url))
      /\ fst (try_block e url) = Ok (title, body_out run, src))
  \/ (exists x,
         fst (try_block e url) = Raise (RequestException x)
         /\ fst (extract_info_from_url e url) = empty_triple)
  \/ (exists x,
         fst (try_block e url) = Raise x
         /\ is_request_exception x = false
         /\ fst (extract_info_from_url e url) = sentinel_triple).
Proof.
  unfold extract_info_from_url.
  destruct (try_block e url) as [[res|x] calls] eqn:T; cbn [fst snd].
  - left. destruct (try_block_ok _ _ T) as [r [t [F [D P]]]].
    destruct (parse_and_extract_ok _ _ _ P)
      as [sp [title [run [src [Q [Ti [B [S ->]]]]]]]].
    exists r, t, sp, title, run, src. split; [exact F|]. split; [exact D|].
    split; [exact Q|]. split; [exact Ti|]. split; [exact B|].
    split; [exact S|]. split; reflexivity.
  - right. destruct x; [left|right..]; eexists; repeat split; reflexivity.
Qed.

Lemma scan_selectors_stripped (selectors : list str) :
  forall sp body seen st,
    scan_selectors selectors sp body seen = Ok st ->
    strip body = body -> strip (sc_body st) = sc_body st.
Proof.
  induction selectors as [|sel rest IH]; intros sp body seen st.
  - cbn [scan_selectors]. intros E. injection E; intros <-. auto.
  - cbn [scan_selectors].
    destruct (dispatch sel) as [m|]; [|discriminate]. cbn [bind].
    destruct (update (matches m) (flat_map decompose_decorative) sp)
      as [[el sp']|]; [|apply IH].
    destruct (150 <? len (normalize (get_text [space] el))).
    + intros E. injection E; intros <-. intros _. cbn. apply strip_idem.
    + intros E _. apply (IH _ _ _ _ E). apply strip_idem.
Qed.

Lemma strip_no_body : strip no_body = no_body.
Proof. vm_compute. reflexivity. Qed.

Lemma strip_no_title : strip no_title = no_title.
Proof. vm_compute. reflexivity. Qed.

Lemma strip_unknown_source : strip unknown_source = unknown_source.
Proof. vm_compute. reflexivity. Qed.

Lemma body_out_stripped (sp : soup) (run : body_run) :
  extract_body sp = Ok run -> strip (body_out run) = body_out run.
Proof.
  unfold extract_body.
  destruct (scan_selectors possible_body_selectors sp [] []) as [st|] eqn:S;
    [|discriminate].
  pose proof (@scan_selectors_stripped possible_body_selectors sp [] [] st
                S eq_refl) as T.
  cbn [bind]. intros E. injection E; intros <-. clear E. cbn [body_out].
  assert (P : forall t, paragraph_text (sc_soup st) = Some t -> strip t = t).
  { unfold paragraph_text. destruct (valid_paragraphs (sc_soup st));
      [discriminate|]. intros t E. injection E; intros <-. apply strip_idem. }
  destruct (match sc_body st with
            | [] => true
            | _ :: _ => len (sc_body st) <? 150
            end).
  - destruct (paragraph_text (sc_soup st)) as [t|].
    + destruct (100 <? len t).
      * destruct t; [exact strip_no_body | exact (P _ eq_refl)].
      * destruct (sc_body st); [exact strip_no_body | exact T].
    + destruct (sc_body st); [exact strip_no_body | exact T].
  - destruct (sc_body st); [exact strip_no_body | exact T].
Qed.

Lemma extract_title_stripped (depth : nat) (sp : soup) (title : str) :
  extract_title depth sp = Ok title -> strip title = title.
Proof.
  unfold extract_title.
  destruct (if truthy _ then _ else _) as [[[|c t]|]|]; cbn [bind];
    try discriminate; intros E; injection E; intros <-;
    first [exact strip_no_title | apply strip_idem].
Qed.

Lemma extract_source_stripped (url s : str) :
  extract_source url = Ok s -> strip s = s.
Proof.
  unfold extract_source.
  destruct (domain_label url) as [s0|]; cbn [bind]; [|discriminate].
  destruct (strip (remove_char (chr "-") s0)) as [|c r] eqn:E;
    intros H; injection H; intros <-.
  - exact strip_unknown_source.
  - rewrite <- E. apply strip_idem.
Qed.

(** X7.  Whatever happens, none of the three strings returned begins or
    ends with whitespace. *)
Theorem X7_returned_fields_are_stripped
        (e : env) (url : str) (t b s : str) (calls : list st_call) :
  extract_info_from_url e url = ((t, b, s), calls) ->
  strip t = t /\ strip b = b /\ strip s = s.
Proof.
  intros E. destruct (returns e url) as [H|[[x [_ H]]|[x [_ [_ H]]]]].
  - destruct H as [r [t0 [sp [ti [run [src [_ [_ [_ [Ti [B [S [R _]]]]]]]]]]]]].
    rewrite R in E. injection E; intros _ <- <- <-.
    split; [exact (extract_title_stripped _ _ Ti)|].
    split; [exact (body_out_stripped _ B) | exact (extract_source_stripped _ S)].
  - rewrite E in H. cbn in H. injection H; intros -> -> ->.
    repeat split; reflexivity.
  - rewrite E in H. cbn in H. injection H; intros -> -> ->.
    split; [exact strip_no_title|].
    split; [exact strip_no_body | exact strip_unknown_source].
Qed.

Lemma X7_stripped_witness :
  strip (@nil char) = [] /\ strip no_body = no_body
  /\ strip (u "example") = u "example".
Proof.
  apply (@X7_returned_fields_are_stripped
           (Samples.serving Samples.blank_title_html Samples.blank_title_tree)
           Samples.example_url [] no_body (u "example") []).
  vm_compute. reflexivity.
Defined.

(** X8.  The body returned is the empty string exactly when the request
    failed (a [RequestException] in the [try] block); the title and the
    source are then empty too.  So the caller's test of a total failure
    (line 366) holds for failed requests and for nothing else. *)
Theorem X8_empty_body_iff_request_failed
        (e : env) (url : str) (t b s : str) (calls : list st_call) :
  extract_info_from_url e url = ((t, b, s), calls) ->
  (b = [] <-> exists x, fst (try_block e url) = Raise (RequestException x))
  /\ (b = [] -> t = [] /\ s = []).
Proof.
  intros E. destruct (returns e url) as [H|[[x [T H]]|[x [T [N H]]]]].
  - destruct H as [r [t0 [sp [ti [run [src [F [D [_ [_ [B [_ [R _]]]]]]]]]]]]].
    rewrite R in E. injection E; intros _ _ <- _.
    pose proof (proj1 (extract_body_shape _ B)) as NE.
    destruct (try_block_fetched F) as [t1 [c1 [D1 T1]]].
    split; [split|]; try (intros K; contradiction).
    intros [x K]. rewrite T1 in K. cbn [fst] in K.
    apply parse_and_extract_raises in K. discriminate.
  - rewrite E in H. cbn in H. injection H; intros -> -> ->.
    split; [split|]; auto. intros _. exists x. exact T.
  - rewrite E in H. cbn in H. injection H; intros -> -> ->.
    split; [split|].
    + intros K. exfalso. exact (no_body_nonempty K).
    + intros [y K]. rewrite T in K. injection K; intros ->. discriminate.
    + intros K. exfalso. exact (no_body_nonempty K).
Qed.

Lemma X8_failed_request_witness :
  ((@nil char) = []
   <-> exists x, fst (try_block (Samples.answering_status 503)
                                Samples.example_url)
                 = Raise (RequestException x))
  /\ ((@nil char) = [] -> (@nil char) = [] /\ (@nil char) = []).
Proof.
  apply (@X8_empty_body_iff_request_failed
           (Samples.answering_status 503) Samples.example_url
           [] [] [] [st_error_request (HTTPError 503)]).
  reflexivity.
Defined.

(** X9.  After a successful fetch, when the parser returns a tree and the
    title is obtained (the recursion of [soup.title.string] at line 70
    stays within the limit of the interpreter), the function returns that
    title, the extracted body and the source, with no call besides those of
    the decoding step: the selector dispatch (lines 102-111) and the
    indexing of lines 144-146 never raise.  So only the parser and the
    recursion of line 70 can bring the sentinel triple of line 160. *)
Theorem X9_extraction_steps_never_fail
        (e : env) (url : str) (r : response) (text_content : str)
        (calls : list st_call) (sp : soup) (title : str) :
  fetched e url r ->
  decode_response e r url = (Ok text_content, calls) ->
  parse e text_content = Ok sp ->
  extract_title (string_depth e) sp = Ok title ->
  exists run src,
    extract_body sp = Ok run
    /\ extract_source url = Ok src
    /\ extract_info_from_url e url
       = ((title, body_out run, src), calls).
Proof.
  intros F D P Ti.
  destruct (try_block_fetched F) as [t [c [D' T]]].
  rewrite D in D'. injection D'; intros <- <-.
  destruct (extract_body_ok sp) as [run B].
  destruct (domain_label_ok url) as [s0 L].
  assert (S : exists src, extract_source url = Ok src).
  { unfold extract_source. rewrite L. cbn [bind].
    destruct (strip (remove_char (chr "-") s0)); eexists; reflexivity. }
  destruct S as [src S]. exists run, src.
  split; [exact B|]. split; [exact S|].
  unfold extract_info_from_url. rewrite T.
  unfold parse_and_extract. rewrite P. cbn [bind]. rewrite Ti. cbn [bind].
  rewrite B. cbn [bind]. rewrite S. reflexivity.
Qed.

Lemma X9_short_article_witness :
  exists run src,
    extract_body Samples.short_article_tree = Ok run
    /\ extract_source Samples.example_url = Ok src
    /\ extract_info_from_url
         (Samples.serving Samples.short_article_html
                          Samples.short_article_tree)
         Samples.example_url
       = ((no_title, body_out run, src), []).
Proof.
  apply (@X9_extraction_steps_never_fail
           (Samples.serving Samples.short_article_html
                            Samples.short_article_tree)
           Samples.example_url
           (Samples.response_of Samples.short_article_html)
           (u Samples.short_article_html) [] Samples.short_article_tree
           no_title).
  - split; reflexivity.
  - reflexivity.
  - reflexivity.
  - vm_compute. reflexivity.
Defined.

(** X10.  The scan of the catalog as the code runs it: it always
    completes; the selectors tried are a prefix of the catalog, in its
    order, and all of it unless the loop was left by [break]; after a
    [break] the body has more than 150 characters and the paragraph
    fallback is skipped; and the fallback is entered exactly when the body
    left by the scan has fewer than 150 characters. *)
Theorem X10_selector_scan_and_short_circuit (sp : soup) :
  exists run,
    extract_body sp = Ok run
    /\ (exists k, visited run = firstn k possible_body_selectors)
    /\ (broke run = false -> visited run = possible_body_selectors)
    /\ (broke run = true ->
        150 < len (body_out run) /\ body_out run = scan_body run
        /\ fallback_executed run = false)
    /\ (fallback_executed run = true <-> len (scan_body run) < 150).
Proof.
  destruct (extract_body_ok sp) as [run B]. exists run.
  split; [exact B|].
  pose proof (break_skips_fallback _ B) as K.
  revert B K. unfold extract_body.
  destruct (scan_selectors possible_body_selectors sp [] []) as [st|] eqn:S;
    [|discriminate].
  destruct (scan_selectors_inv _ _ _ _ S) as [_ [_ [V [k P]]]].
  cbn [bind]. intros E. injection E; intros <-. clear E.
  cbn [visited broke body_out scan_body fallback_executed temp_body].
  intros K. cbn [app] in V, P.
  split; [exists k; exact P|]. split; [exact V|]. split.
  - intros Bk. destruct (K Bk) as [A [Fb [_ O]]].
    rewrite O. repeat split; auto.
  - destruct (sc_body st) as [|c b]; [cbn; split; [lia | reflexivity]|].
    rewrite Nat.ltb_lt. tauto.
Qed.


(** ** Removing the decorative nodes *)

Lemma always_removed_decorative (name : str) :
  name_in always_removed name = true -> name_in decorative name = true.
Proof.
  unfold name_in, always_removed, decorative.
  cbn [map existsb]. intros H.
  repeat (apply orb_true_iff in H; destruct H as [H|H];
          [rewrite H; rewrite ?orb_true_r; reflexivity|]).
  discriminate.
Qed.

Lemma decompose_decorative_clean (n : node) :
  forall x, In x (decompose_decorative n) ->
            has_tag_named always_removed x = false.
Proof.
  induction n as [s|s|name a cs IH] using node_induction; intros x.
  - intros [<-|[]]. reflexivity.
  - intros [<-|[]]. reflexivity.
  - cbn [decompose_decorative].
    destruct (name_in decorative name
              && (Py.eqb (strip (get_text [] (Tag name a cs))) []
                  || name_in always_removed name)) eqn:R; [intros []|].
    intros [<-|[]]. cbn [has_tag_named].
    apply orb_false_iff. split.
    + destruct (name_in always_removed name) eqn:A; [|reflexivity].
      rewrite (always_removed_decorative _ A), orb_true_r in R.
      discriminate.
    + apply not_true_is_false. intros E.
      apply existsb_exists in E. destruct E as [y [Iy Hy]].
      apply in_flat_map in Iy. destruct Iy as [c [Ic Iy]].
      rewrite Forall_forall in IH. rewrite (IH c Ic y Iy) in Hy.
      discriminate.
Qed.

Lemma update_node_shape (test : str -> attrs -> bool)
      (f : list node -> list node) (n : node) :
  forall el n', update_node test f n = Some (el, n') ->
                exists name a cs, el = Tag name a (f cs).
Proof.
  induction n as [s|s|name a cs IH] using node_induction; intros el n';
    try discriminate.
  cbn [update_node]. destruct (test name a).
  - intros E. injection E; intros _ <-. exists name, a, cs. reflexivity.
  - set (go := fix update_list (l : list node) {struct l}
                   : option (node * list node) :=
             match l with
             | [] => None
             | x :: l' =>
               match update_node test f x with
               | Some (e, x') => Some (e, x' :: l')
               | None =>
                 match update_list l' with
                 | Some (e, l'') => Some (e, x :: l'')
                 | None => None
                 end
               end
             end).
    assert (G : forall l, Forall (fun n =>
                   forall el n', update_node test f n = Some (el, n') ->
                                 exists name a cs, el = Tag name a (f cs)) l ->
                forall el l', go l = Some (el, l') ->
                              exists name a cs, el = Tag name a (f cs)).
    { induction l as [|x l IHl]; intros F el0 l0; [discriminate|].
      inversion F as [|? ? Hx Hl]; subst. cbn.
      destruct (update_node test f x) as [[e x']|] eqn:U.
      - intros E. injection E; intros _ <-. exact (Hx _ _ eq_refl).
      - destruct (go l) as [[e l'']|] eqn:Gl; [|discriminate].
        intros E. injection E; intros _ <-. exact (IHl Hl _ _ eq_refl). }
    destruct (go cs) as [[e cs']|] eqn:Gc; [|discriminate].
    intros E. injection E; intros _ <-. exact (G cs IH _ _ Gc).
Qed.

Lemma update_shape (test : str -> attrs -> bool)
      (f : list node -> list node) (l : list node) :
  forall el l', update test f l = Some (el, l') ->
                exists name a cs, el = Tag name a (f cs).
Proof.
  induction l as [|x l IH]; intros el l'; [discriminate|].
  cbn [update].
  destruct (update_node test f x) as [[e x']|] eqn:U.
  - intros E. injection E; intros _ <-. exact (update_node_shape _ _ _ U).
  - destruct (update test f l) as [[e l'']|] eqn:G; [|discriminate].
    intros E. injection E; intros _ <-. exact (IH _ _ eq_refl).
Qed.

(** X11.  In the element that a selector of the scan picks, once lines
    115-117 have run, no [script], [style], [ins], [iframe] or [noscript]
    tag is left at any depth. *)
Theorem X11_no_script_or_style_left_in_the_body_element
        (m : matcher) (sp sp' : soup) (body_element : node) :
  update (matches m) (flat_map decompose_decorative) sp
  = Some (body_element, sp') ->
  exists name a contents,
    body_element = Tag name a contents
    /\ forall x, In x contents -> has_tag_named always_removed x = false.
Proof.
  intros U. destruct (update_shape _ _ _ U) as [name [a [cs ->]]].
  exists name, a, (flat_map decompose_decorative cs).
  split; [reflexivity|]. intros x Ix.
  apply in_flat_map in Ix. destruct Ix as [c [_ Ix]].
  exact (decompose_decorative_clean c x Ix).
Qed.

Lemma subsequence_nil_l (b : list str) : subsequence [] b.
Proof.
  induction b as [|x b IH]; [constructor | apply subsequence_skip, IH].
Qed.

Lemma subsequence_refl (a : list str) : subsequence a a.
Proof.
  induction a as [|x a IH]; [constructor | apply subsequence_keep, IH].
Qed.

Lemma subsequence_app (a b c d : list str) :
  subsequence a b -> subsequence c d -> subsequence (a ++ c) (b ++ d).
Proof.
  intros H K. induction H as [|x a b H IH|x a b H IH]; cbn.
  - exact K.
  - apply subsequence_skip, IH.
  - apply subsequence_keep, IH.
Qed.

Lemma decompose_decorative_strings (n : node) :
  subsequence (flat_map stripped_strings (decompose_decorative n))
              (stripped_strings n).
Proof.
  induction n as [s|s|name a cs IH] using node_induction.
  - cbn [decompose_decorative flat_map]. rewrite app_nil_r.
    apply subsequence_refl.
  - cbn. constructor.
  - cbn [decompose_decorative].
    destruct (name_in decorative name && _); [apply subsequence_nil_l|].
    cbn [flat_map stripped_strings]. rewrite app_nil_r.
    induction IH as [|c cs Hc Hcs IHcs]; [constructor|].
    cbn [flat_map]. rewrite flat_map_app.
    apply subsequence_app; [exact Hc | exact IHcs].
Qed.

(** X12.  Lines 115-117 only take text away: the strings of the body
    element after the removal of its decorative nodes are strings it had
    before, in the same order. *)
Theorem X12_decorative_removal_only_takes_text_away
        (name : str) (a : attrs) (contents : list node) :
  subsequence
    (stripped_strings (Tag name a (flat_map decompose_decorative contents)))
    (stripped_strings (Tag name a contents)).
Proof.
  cbn [stripped_strings].
  induction contents as [|c cs IH]; [constructor|].
  cbn [flat_map]. rewrite flat_map_app.
  apply subsequence_app; [apply decompose_decorative_strings | exact IH].
Qed.

(** ** The button handler *)

Lemma blank_iff (s : str) : blank s = true <-> forallb isspace s = true.
Proof.
  unfold blank. rewrite <- filter_nonspace_nil, <- (filter_strip s).
  pose proof (strip_head s) as H.
  destruct (strip s) as [|c r]; [cbn; tauto|].
  cbn. rewrite H. cbn. split; discriminate.
Qed.

Lemma blank_app (a b : str) : blank (a ++ b) = blank a && blank b.
Proof.
  apply eq_true_iff_eq.
  rewrite andb_true_iff, !blank_iff, forallb_app, andb_true_iff. tauto.
Qed.

Lemma stripped_nonempty_not_blank (s : str) :
  strip s = s -> s <> [] -> blank s = false.
Proof.
  intros E N. unfold blank. rewrite E. destruct s; [contradiction|].
  reflexivity.
Qed.

Lemma extraction_calls (calls : list st_call) (c : ui_call) :
  In c (map extraction calls) -> exists x, c = extraction x.
Proof.
  intros H. apply in_map_iff in H. destruct H as [x [<- _]].
  exists x. reflexivity.
Qed.

Lemma empty_no_title : empty no_title = false.
Proof. reflexivity. Qed.

(** What [collect] hands over is never blank, and it never holds the
    warning of line 384 or, unless the triple came back empty, the error
    of line 367. *)
Lemma collect_ready (e : env) (f : form) (text hint : str)
      (calls : list ui_call) :
  collect e f = inr (text, hint, calls) ->
  blank text = false
  /\ ~ In warning_nothing_to_analyze calls
  /\ ~ In error_not_loaded calls.
Proof.
  destruct f as [t|t b|l]; cbn [collect].
  - destruct (blank t) eqn:B; [discriminate|].
    intros E. injection E; intros <- _ <-. repeat split; auto.
  - destruct (blank t) eqn:Bt; destruct (blank b) eqn:Bb; cbn;
      try discriminate; intros E; injection E; intros <- _ <-;
      repeat split; auto.
    rewrite !blank_app, Bt. reflexivity.
  - destruct (blank l); [discriminate|].
    destruct (extract_info_from_url e l) as [[[t b] s] c] eqn:X.
    destruct (empty t && empty b) eqn:Em; [discriminate|].
    destruct (Py.eqb t no_title && Py.eqb b no_body) eqn:Sn; [discriminate|].
    intros E. injection E; intros <- _ <-.
    assert (Bs : blank s = false).
    { destruct (returns e l) as [H|[[x [_ H]]|[x [_ [_ H]]]]].
      - destruct H
          as [r [t0 [sp [ti [run [src [_ [_ [_ [_ [_ [S [R _]]]]]]]]]]]]].
        rewrite R in X. injection X; intros _ <- _ _.
        apply stripped_nonempty_not_blank.
        + exact (extract_source_stripped _ S).
        + exact (extract_source_nonempty _ S).
      - rewrite X in H. cbn in H. injection H; intros -> -> ->.
        discriminate.
      - rewrite X in H. cbn in H. injection H; intros -> -> ->.
        rewrite !eqb_refl in Sn. discriminate. }
    change (t ++ space :: b ++ space :: s)
      with (t ++ [space] ++ b ++ [space] ++ s).
    split; [rewrite !blank_app, Bs, !andb_false_r; reflexivity|].
    split; intros I; apply in_app_or in I; destruct I as [I|I].
    + destruct (extraction_calls _ _ I); discriminate.
    + destruct I as [I|[I|[I|[]]]]; try discriminate.
      destruct (negb (Py.eqb b no_body)); discriminate.
    + destruct (extraction_calls _ _ I); discriminate.
    + destruct I as [I|[I|[I|[]]]]; try discriminate.
      destruct (negb (Py.eqb b no_body)); discriminate.
Qed.

Lemma collect_stopped (e : env) (f : form) (calls : list ui_call) :
  collect e f = inl calls -> ~ In warning_nothing_to_analyze calls.
Proof.
  destruct f as [t|t b|l]; cbn [collect].
  - destruct (blank t); [|discriminate].
    intros E. injection E; intros <-. intros [I|[]]; discriminate.
  - destruct (blank t); destruct (blank b); cbn; try discriminate.
    intros E. injection E; intros <-. intros [I|[]]; discriminate.
  - destruct (blank l).
    + intros E. injection E; intros <-. intros [I|[]]; discriminate.
    + destruct (extract_info_from_url e l) as [[[t b] s] c].
      destruct (empty t && empty b).
      * intros E. injection E; intros <-. intros I.
        apply in_app_or in I. destruct I as [I|[I|[]]]; [|discriminate].
        destruct (extraction_calls _ _ I); discriminate.
      * destruct (Py.eqb t no_title && Py.eqb b no_body); [|discriminate].
        intros E. injection E; intros <-. intros I.
        apply in_app_or in I. destruct I as [I|[I|[]]]; [|discriminate].
        destruct (extraction_calls _ _ I); discriminate.
Qed.

(** X13.  In every checking mode the text that reaches the model is not
    blank, and the guard of lines 383-385 never fires: its warning is in no
    run of the handler. *)
Theorem X13_text_for_the_model_is_never_blank (e : env) (f : form) :
  ~ In warning_nothing_to_analyze (calls_of (prepare e f))
  /\ (forall text hint calls,
         prepare e f = Ready text hint calls -> blank text = false).
Proof.
  unfold prepare.
  destruct (collect e f) as [calls|[[text hint] calls]] eqn:C.
  - split; [exact (collect_stopped _ _ C) | discriminate].
  - destruct (collect_ready _ _ C) as [B [N _]]. rewrite B.
    split; [exact N|]. intros t h c E. injection E; intros _ _ <-. exact B.
Qed.

(** X14.  In link mode, with a link that is not blank, the handler shows
    the error of line 367 ("could not load the content") exactly when the
    request failed; a page that was fetched never brings it. *)
Theorem X14_not_loaded_error_iff_request_failed (e : env) (link : str) :
  blank link = false ->
  (In error_not_loaded (calls_of (prepare e (Link link)))
   <-> exists x, fst (try_block e link) = Raise (RequestException x)).
Proof.
  intros BL.
  assert (K : (exists c, collect e (Link link) = inl (c ++ [error_not_loaded]))
              <-> exists x, fst (try_block e link)
                            = Raise (RequestException x)).
  { cbn [collect]. rewrite BL.
    destruct (extract_info_from_url e link) as [[[t b] s] c] eqn:X.
    destruct (returns e link) as [H|[[x [T H]]|[x [T [N H]]]]].
    - destruct H
        as [r [t0 [sp [ti [run [src [_ [_ [_ [_ [B [_ [R Tk]]]]]]]]]]]]].
      rewrite R in X. injection X; intros _ _ <- _.
      pose proof (proj1 (extract_body_shape _ B)) as NE.
      assert (Em : empty (body_out run) = false)
        by (destruct (body_out run); [contradiction | reflexivity]).
      rewrite Em, andb_false_r. split.
      + intros [c0 E]. destruct (Py.eqb t no_title && _);
          [|discriminate].
        injection E; intros E'. apply app_inj_tail in E'.
        destruct E' as [_ E']. discriminate.
      + intros [x E]. rewrite Tk in E. discriminate.
    - rewrite X in H. cbn in H. injection H; intros -> -> ->. cbn.
      split; [intros _; exists x; exact T|].
      intros _. eexists. reflexivity.
    - rewrite X in H. cbn in H. injection H; intros -> -> ->.
      rewrite empty_no_title, !eqb_refl. cbn. split.
      + intros [c0 E]. injection E; intros E'. apply app_inj_tail in E'.
        destruct E' as [_ E']. discriminate.
      + intros [y E]. rewrite T in E. injection E; intros ->.
        discriminate. }
  unfold prepare.
  destruct (collect e (Link link)) as [calls|[[text hint] calls]] eqn:C.
  - cbn [calls_of]. split.
    + intros I. apply K. revert C I. cbn [collect]. rewrite BL.
      destruct (extract_info_from_url e link) as [[[t b] s] c].
      destruct (empty t && empty b).
      * intros E _. injection E; intros <-. eexists. reflexivity.
      * destruct (Py.eqb t no_title && Py.eqb b no_body); [|discriminate].
        intros E. injection E; intros <-. intros I.
        apply in_app_or in I. destruct I as [I|[I|[]]]; [|discriminate].
        destruct (extraction_calls _ _ I); discriminate.
    + intros H. apply K in H. destruct H as [c E].
      injection E; intros ->. apply in_or_app. right. left. reflexivity.
  - destruct (collect_ready _ _ C) as [B [_ N]]. rewrite B. cbn [calls_of].
    split; [intros I; contradiction|].
    intros H. apply K in H. destruct H as [c E]. discriminate.
Qed.

Lemma X14_failed_request_witness :
  In error_not_loaded
     (calls_of (prepare (Samples.answering_status 404)
                        (Link Samples.example_url)))
  <-> exists x, fst (try_block (Samples.answering_status 404)
                               Samples.example_url)
                = Raise (RequestException x).
Proof.
  apply (@X14_not_loaded_error_iff_request_failed
           (Samples.answering_status 404) Samples.example_url).
  vm_compute. reflexivity.
Defined.

Lemma X11_script_removed_witness :
  exists name a contents,
    Tag (u "article") [] [NavigableString (u "News")] = Tag name a contents
    /\ forall x, In x contents -> has_tag_named always_removed x = false.
Proof.
  apply (@X11_no_script_or_style_left_in_the_body_element
           (ByName (u "article"))
           [Tag (u "article") []
                [Tag (u "script") [] [NavigableString (u "track()")];
                 NavigableString (u "News")]]
           [Tag (u "article") [] [NavigableString (u "News")]]
           (Tag (u "article") [] [NavigableString (u "News")])).
  vm_compute. reflexivity.
Defined.

(** A title nested deeper than [Tag.string] can follow: the parser has
    returned a tree, line 70 raises [RecursionError], and the handler of
    line 158 returns the sentinel triple. *)
Example deep_title_degrades_to_sentinels :
  extract_info_from_url
    (Samples.serving "<html>...</html>" Samples.deep_title_tree)
    Samples.example_url
  = ((no_title, no_body, unknown_source),
     [st_warning_unexpected (OtherException "RecursionError")]).
Proof. vm_compute. reflexivity. Qed.
